(** * tokenx: approximate token estimation and token-bounded chunking

    A shallow embedding of [src/index.ts] (segmenter, token estimator,
    chunker) and the properties of its specification.

    Strings are JavaScript strings: finite sequences of UTF-16 code units.
    The regular expressions of the source carry no [u] flag, so they read
    the string one code unit at a time; none carries [g] or [y], so
    [RegExp.prototype.test] is stateless.  Numbers are modelled by [Z]:
    lengths, counts, budgets and overlaps are integers far below 2^53,
    where the double arithmetic of the source is exact. *)

From Stdlib Require Import String Ascii ZArith List Bool Lia.
From Equations Require Import Equations.
From Equations.Prop Require Import Logic.
Import ListNotations.
Local Open Scope Z_scope.

(** ** Strings *)

Definition code_unit := Z.
Definition jsstring := list code_unit.

(** A string literal of the source whose characters are all ASCII. *)
Definition js (s : string) : jsstring :=
  map (fun a => Z.of_N (N_of_ascii a)) (list_ascii_of_string s).

(** [String.prototype.length]: the number of code units. *)
Definition jslength (s : jsstring) : Z := Z.of_nat (List.length s).

(** [Array.from(s).length]: the string iterator yields one element per code
    point, pairing a high surrogate with the low surrogate that follows it
    and yielding any other code unit (a lone surrogate too) by itself. *)
Definition is_high_surrogate (c : code_unit) : bool := (0xD800 <=? c) && (c <=? 0xDBFF).
Definition is_low_surrogate (c : code_unit) : bool := (0xDC00 <=? c) && (c <=? 0xDFFF).

Fixpoint code_points (s : jsstring) : Z :=
  match s with
  | [] => 0
  | c :: s' =>
      match s' with
      | d :: s'' =>
          if is_high_surrogate c && is_low_surrogate d
          then 1 + code_points s''
          else 1 + code_points s'
      | [] => 1
      end
  end.

(** ** Character classes of the regular expressions *)

Module CharClass.

Definition one_of (cs : list code_unit) (c : code_unit) : bool :=
  existsb (Z.eqb c) cs.

Definition in_ranges (rs : list (code_unit * code_unit)) (c : code_unit) : bool :=
  existsb (fun r => (fst r <=? c) && (c <=? snd r)) rs.

(** [\s]: WhiteSpace and LineTerminator of ECMAScript
    (TAB, LF, VT, FF, CR, SP, NBSP, the Zs category, LS, PS, ZWNBSP). *)
Definition space (c : code_unit) : bool :=
  one_of [0x09; 0x0A; 0x0B; 0x0C; 0x0D; 0x20; 0xA0; 0x1680;
          0x2028; 0x2029; 0x202F; 0x205F; 0x3000; 0xFEFF] c
  || in_ranges [(0x2000, 0x200A)] c.

(** [\d] *)
Definition digit (c : code_unit) : bool := in_ranges [(0x30, 0x39)] c.

(** The class of [PUNCTUATION_RE], which is also the second alternative
    of the splitter: ASCII punctuation and symbols (no underscore) and the
    typographic quotes U+201E, U+201C, U+201D, U+2018, U+2019. *)
Definition punctuation (c : code_unit) : bool :=
  one_of [46; 44; 33; 63; 59; 39; 34;            (* . , ! ? ; apostrophe, quotation mark *)
          0x201E; 0x201C; 0x201D; 0x2018; 0x2019; (* low-9, left/right double, left/right single *)
          45; 40; 41; 123; 125; 91; 93;           (* - ( ) { } [ ] *)
          60; 62; 58; 47; 92; 124;                (* < > : / \ | *)
          64; 35; 36; 37; 94; 38; 42; 43; 61;     (* @ # $ % ^ & * + = *)
          96; 126] c.                             (* ` ~ *)

(** The class of [CJK_RE]. *)
Definition cjk (c : code_unit) : bool :=
  in_ranges [(0x4E00, 0x9FFF); (0x3400, 0x4DBF); (0x3000, 0x303F);
             (0xFF00, 0xFFEF); (0x30A0, 0x30FF); (0x2E80, 0x2EFF);
             (0x31C0, 0x31EF); (0x3200, 0x32FF); (0x3300, 0x33FF);
             (0xAC00, 0xD7AF); (0x1100, 0x11FF); (0x3130, 0x318F);
             (0xA960, 0xA97F); (0xD7B0, 0xD7FF)] c.

(** [[\d.,]] *)
Definition numeric (c : code_unit) : bool := digit c || one_of [46; 44] c.

(** The class of [ALPHANUMERIC_RE]: ASCII letters and digits, U+00C0-U+00D6,
    U+00D8-U+00F6, U+00F8-U+00FF. *)
Definition alphanumeric (c : code_unit) : bool :=
  in_ranges [(97, 122); (65, 90); (48, 57);
             (0xC0, 0xD6); (0xD8, 0xF6); (0xF8, 0xFF)] c.

(** The class of the language metric, a-umlaut, o-umlaut, u-umlaut, sharp s
    and capital sharp s (U+00E4, U+00F6, U+00FC, U+00DF, U+1E9E), under the
    [i] flag.  Without [u], a code unit matches when its upper-case form
    (kept unchanged when the upper case has several code units, as for
    sharp s) is that of a member: this adds U+00C4, U+00D6 and U+00DC. *)
Definition umlaut (c : code_unit) : bool :=
  one_of [0xE4; 0xC4; 0xF6; 0xD6; 0xFC; 0xDC; 0xDF; 0x1E9E] c.

End CharClass.

(** ** The regular expressions, as their [test] *)

(** [/[C]/.test(s)]: some code unit is in the class. *)
Definition test_some (cls : code_unit -> bool) (s : jsstring) : bool := existsb cls s.

(** [/^[C]+$/.test(s)]: [s] is not empty and every code unit is in the class. *)
Definition test_all (cls : code_unit -> bool) (s : jsstring) : bool :=
  match s with [] => false | _ => forallb cls s end.

Definition WHITESPACE_RE : jsstring -> bool := test_all CharClass.space.
Definition CJK_RE : jsstring -> bool := test_some CharClass.cjk.
(** [/[\d.,]+/] is not anchored: one code unit of the class is a match. *)
Definition NUMERIC_SEQUENCE_RE : jsstring -> bool := test_some CharClass.numeric.
Definition PUNCTUATION_RE : jsstring -> bool := test_some CharClass.punctuation.
Definition ALPHANUMERIC_RE : jsstring -> bool := test_all CharClass.alphanumeric.

Definition DEFAULT_AVERAGE_CHARS_PER_TOKEN : Z := 6.

Record LanguageMetric := {
  regex : jsstring -> bool;
  averageCharsPerToken : Z
}.

Definition LANGUAGE_METRICS : list LanguageMetric :=
  [ {| regex := test_some CharClass.umlaut; averageCharsPerToken := 3 |} ].

Record TokenCount := {
  token : jsstring;
  count : Z
}.

(** ** Segmenter: [input.split(/(\s+|[...]+)/).filter(Boolean)] *)

(** The longest prefix in a class and what follows it. *)
Fixpoint span (cls : code_unit -> bool) (s : jsstring) : jsstring * jsstring :=
  match s with
  | [] => ([], [])
  | c :: s' =>
      if cls c then let (run, rest) := span cls s' in (c :: run, rest)
      else ([], s)
  end.

(** The splitter matched at the head of [s]: the capture group (which is the
    whole match) and the rest.  Both alternatives are greedy runs of at
    least one code unit. *)
Definition match_splitter (s : jsstring) : option (jsstring * jsstring) :=
  match s with
  | [] => None
  | c :: _ =>
      if CharClass.space c then Some (span CharClass.space s)
      else if CharClass.punctuation c then Some (span CharClass.punctuation s)
      else None
  end.

(** The loop of [RegExp.prototype[Symbol.split]]: [p] is the pending
    substring S[p..q), [s] is S[q..).  A match at [q] ends after [q], so it
    never ends at [p]: the pending substring and the capture are pushed and
    both indices move to the end of the match; without a match [q] advances
    by one code unit.  At the end the pending substring is pushed (for the
    empty input this is the single empty string the method returns when the
    splitter does not match it).  The limit of 2^32 - 1 elements of the
    method is out of reach of a string an engine can hold. *)
Equations? split_loop (p s : jsstring) : list jsstring by wf (length s) lt :=
  split_loop p [] := [p];
  split_loop p (c :: s') with inspect (match_splitter (c :: s')) := {
    | exist _ (Some (cap, rest)) Hm := p :: cap :: split_loop [] rest;
    | exist _ None Hm := split_loop (p ++ [c]) s' }.
Proof.
  assert (Hspan : forall cls s run tail,
             span cls s = (run, tail) -> (length tail <= length s)%nat).
  { intros cls s. induction s as [|d s IH]; intros run tail; simpl.
    - intros [= <- <-]. simpl. lia.
    - destruct (cls d).
      + destruct (span cls s) as [r1 r2]. intros [= <- <-].
        specialize (IH r1 r2 eq_refl). lia.
      + intros [= <- <-]. simpl. lia. }
  unfold match_splitter in Hm.
  destruct (CharClass.space c) eqn:Hc;
    [|destruct (CharClass.punctuation c) eqn:Hp; [|discriminate]];
    simpl in Hm; rewrite ?Hc, ?Hp in Hm;
    [destruct (span CharClass.space s') as [r1 r2] eqn:E
    |destruct (span CharClass.punctuation s') as [r1 r2] eqn:E];
    injection Hm as <- <-; apply Hspan in E; lia.
Qed.

Definition split (input : jsstring) : list jsstring := split_loop [] input.

(** [Boolean(s)] on a string: false exactly for the empty string. *)
Definition Boolean (s : jsstring) : bool :=
  match s with [] => false | _ => true end.

Definition roughTokens (input : jsstring) : list jsstring :=
  filter Boolean (split input).

(** ** Token estimator: the body of the loop of [approximateTokenChunks] *)

(** The first language metric whose regex matches, or [undefined]. *)
Definition languageAverage (tok : jsstring) : option Z :=
  option_map averageCharsPerToken (find (fun language => regex language tok) LANGUAGE_METRICS).

(** Truthiness of a [number | undefined]. *)
Definition truthy (n : option Z) : bool :=
  match n with Some v => negb (v =? 0) | None => false end.

(** [n ?? d] *)
Definition nullish (n : option Z) (d : Z) : Z :=
  match n with Some v => v | None => d end.

(** [Math.ceil(a / b)] for a positive divisor. *)
Definition ceil_div (a b : Z) : Z := - ((- a) / b).

Definition countOf (tok : jsstring) : Z :=
  let average := languageAverage tok in
  if WHITESPACE_RE tok then 0
  else if CJK_RE tok then code_points tok
  else if NUMERIC_SEQUENCE_RE tok then 1
  else if jslength tok <=? 3 then 1
  else if PUNCTUATION_RE tok then
    (if 1 <? jslength tok then ceil_div (jslength tok) 2 else 1)
  else if ALPHANUMERIC_RE tok || truthy average then
    ceil_div (jslength tok) (nullish average DEFAULT_AVERAGE_CHARS_PER_TOKEN)
  else code_points tok.

Definition approximateTokenChunks (input : jsstring) : list TokenCount :=
  map (fun tok => {| token := tok; count := countOf tok |}) (roughTokens input).

Definition approximateTokenSize (input : jsstring) : Z :=
  fold_left (fun acc tc => acc + count tc) (approximateTokenChunks input) 0.

Definition isWithinTokenLimit (input : jsstring) (tokenLimit : Z) : bool :=
  approximateTokenSize input <=? tokenLimit.

(** ** Chunker *)

(** The chunker either returns or throws the [TypeError] of reading
    [.count] of [undefined]. *)
Inductive result (A : Type) : Type :=
| Ok (a : A)
| TypeError.
Arguments Ok {A} a.
Arguments TypeError {A}.

Definition bind {A B} (r : result A) (k : A -> result B) : result B :=
  match r with Ok a => k a | TypeError => TypeError end.

Notation "x <- r ;; k" := (bind r (fun x => k))
  (at level 61, r at next level, right associativity).

(** [a.slice(start)] *)
Definition slice {A} (a : list A) (start : Z) : list A :=
  let len := Z.of_nat (length a) in
  let k := if start <? 0 then Z.max (len + start) 0 else Z.min start len in
  skipn (Z.to_nat k) a.

(** [while (i-- && count < overlap) count += chunk[i].count], entered with
    [i >= 0]; the result is the final [(i, count)].  The test reads [i] and
    then decrements it: at 0 the loop ends with [i = -1] and the second
    conjunct is not evaluated; otherwise the body runs at the decremented
    index while [count < overlap]. *)
Fixpoint overlapWalk (chunk : list TokenCount) (overlap : Z) (i : nat) (cnt : Z)
  : result (Z * Z) :=
  match i with
  | O => Ok (-1, cnt)
  | S i' =>
      if cnt <? overlap then
        match nth_error chunk i' with
        | Some t => overlapWalk chunk overlap i' (cnt + count t)
        | None => TypeError
        end
      else Ok (Z.of_nat i', cnt)
  end.

(** Lines 81-87: the seed of the next chunk and the running count.  On an
    empty chunk [i] starts at -1, which is truthy: [i] becomes -2 and, the
    count 0 being below a positive overlap, [chunk[-2]] is [undefined] and
    reading its [count] throws. *)
Definition overlapSeed (chunk : list TokenCount) (overlap : Z)
  : result (list TokenCount * Z) :=
  let i := Z.of_nat (length chunk) - 1 in
  r <- (if i <? 0 then
          if 0 <? overlap then TypeError else Ok (i - 1, 0)
        else overlapWalk chunk overlap (Z.to_nat i) 0) ;;
  Ok (slice chunk (fst r), snd r).

(** The variables of the loop: [chunks], [chunk] and [count].  The array
    pushed onto [chunks] is never written again: [chunk] is rebound to a
    fresh array ([slice] or the empty literal) before the next [push]. *)
Definition state : Type := list (list TokenCount) * list TokenCount * Z.

(** Lines 78-93: close the running chunk when the pair does not fit. *)
Definition closeChunk (maxTokens overlap : Z) (st : state) (tok : TokenCount)
  : result state :=
  let '(chunks, chunk, cnt) := st in
  if maxTokens <? cnt + count tok then
    let chunks := chunks ++ [chunk] in
    if 0 <? overlap then
      r <- overlapSeed chunk overlap ;;
      Ok (chunks, fst r, snd r)
    else Ok (chunks, [], 0)
  else Ok st.

(** One iteration of the loop of lines 77-97. *)
Definition step (maxTokens overlap : Z) (st : state) (tok : TokenCount)
  : result state :=
  st' <- closeChunk maxTokens overlap st tok ;;
  let '(chunks, chunk, cnt) := st' in
  Ok (chunks, chunk ++ [tok], cnt + count tok).

Fixpoint loop (maxTokens overlap : Z) (st : state) (counts : list TokenCount)
  : result state :=
  match counts with
  | [] => Ok st
  | tok :: counts' =>
      st' <- step maxTokens overlap st tok ;;
      loop maxTokens overlap st' counts'
  end.

(** Lines 98-100. *)
Definition finish (st : state) : list (list TokenCount) :=
  let '(chunks, chunk, _) := st in
  match chunk with
  | [] => chunks
  | _ => chunks ++ [chunk]
  end.

(** The chunker on a sequence of pairs: the array [chunks] of line 101. *)
Definition chunkPairs (counts : list TokenCount) (maxTokens overlap : Z)
  : result (list (list TokenCount)) :=
  st <- loop maxTokens overlap ([], [], 0) counts ;;
  Ok (finish st).

(** [chunk.map(({ token }) => token).join('')] *)
Definition joinTokens (chunk : list TokenCount) : jsstring :=
  concat (map token chunk).

Definition chunkByMaxTokens (input : jsstring) (maxTokens overlap : Z)
  : result (list jsstring) :=
  chunks <- chunkPairs (approximateTokenChunks input) maxTokens overlap ;;
  Ok (map joinTokens chunks).

(** The total estimated count of a chunk. *)
Definition total (chunk : list TokenCount) : Z :=
  fold_right (fun tc acc => count tc + acc) 0 chunk.

(** ** Model context sizes *)

(** [s.startsWith(prefix)] *)
Fixpoint startsWith (s prefix : jsstring) {struct prefix} : bool :=
  match prefix with
  | [] => true
  | c :: prefix' =>
      match s with
      | [] => false
      | d :: s' => (d =? c) && startsWith s' prefix'
      end
  end.

(** Equality of strings, as [===] and as the key comparison of [Map]. *)
Definition string_eqb (a b : jsstring) : bool :=
  if list_eq_dec Z.eq_dec a b then true else false.

(** The entries of the map, in the order of the source; the keys are
    pairwise distinct, so the first entry with a key is the only one. *)
Definition modelContextSizeMap : list (jsstring * Z) :=
  [ (js "gpt-3.5-turbo-16k", 16384);
    (js "gpt-3.5-turbo", 4096);
    (js "gpt-4-1106-preview", 128000);
    (js "gpt-4-32k", 32768);
    (js "gpt-4", 8192);
    (js "text-davinci-003", 4097);
    (js "text-curie-001", 2048);
    (js "text-babbage-001", 2048);
    (js "text-ada-001", 2048);
    (js "code-davinci-002", 8000);
    (js "code-cushman-001", 2048) ].

(** [map.get(key)] *)
Fixpoint Map_get (map : list (jsstring * Z)) (key : jsstring) : option Z :=
  match map with
  | [] => None
  | (k, v) :: map' => if string_eqb k key then Some v else Map_get map' key
  end.

Definition resolveModelName (modelName : jsstring) : jsstring :=
  if startsWith modelName (js "gpt-3.5-turbo-16k") then js "gpt-3.5-turbo-16k"
  else if startsWith modelName (js "gpt-3.5-turbo-") then js "gpt-3.5-turbo"
  else if startsWith modelName (js "gpt-4-32k") then js "gpt-4-32k"
  else if startsWith modelName (js "gpt-4-") then js "gpt-4"
  else modelName.

Definition getModelContextSize (modelName : jsstring) : Z :=
  let modelKey := resolveModelName modelName in
  nullish (Map_get modelContextSizeMap modelKey) 4097.

(** The optional argument is [None] when it is left out. *)
Definition getEmbeddingContextSize (modelName : option jsstring) : Z :=
  match modelName with
  | Some name => if string_eqb name (js "text-embedding-ada-002") then 8191 else 2046
  | None => 2046
  end.

(** [maxTokensInResponse] is 0 when the caller leaves it out. *)
Definition approximateMaxTokenSize
  (prompt modelName : jsstring) (maxTokensInResponse : Z) : Z :=
  let remainingTokens :=
    getModelContextSize modelName - approximateTokenSize prompt - maxTokensInResponse in
  Z.max 0 remainingTokens.

(** ** Definitions used to state the properties *)

(** What one iteration does when [overlap > 0] is false. *)
Definition step0 (maxTokens : Z) (st : state) (tok : TokenCount) : state :=
  let '(chunks, chunk, cnt) := st in
  if maxTokens <? cnt + count tok
  then (chunks ++ [chunk], [tok], 0 + count tok)
  else (chunks, chunk ++ [tok], cnt + count tok).

(** All pairs held by a state, in order. *)
Definition pairs (st : state) : list TokenCount :=
  let '(chunks, chunk, _) := st in concat chunks ++ chunk.

(** A chunk is within budget when its total is at most [maxTokens], or
    when it holds a single pair whose own count exceeds [maxTokens]. *)
Definition within_budget (maxTokens : Z) (chunk : list TokenCount) : Prop :=
  total chunk <= maxTokens
  \/ exists pair, chunk = [pair] /\ maxTokens < count pair.

Definition budget_invariant (maxTokens : Z) (st : state) : Prop :=
  let '(chunks, chunk, cnt) := st in
  Forall (within_budget maxTokens) chunks /\ cnt = total chunk
  /\ within_budget maxTokens chunk.

(** Counts are never negative. *)
Definition nonneg (tc : TokenCount) : Prop := 0 <= count tc.

(** The run with overlap, [st1], against the run without, [st0], on the
    same pairs: the run with overlap has closed more chunks, or as many
    with a running count at least as large. *)
Definition ahead (st0 st1 : state) : Prop :=
  let '(chunks0, chunk0, cnt0) := st0 in
  let '(chunks1, chunk1, cnt1) := st1 in
  0 <= cnt1
  /\ Forall nonneg chunk1
  /\ (chunk0 = [] <-> chunk1 = [])
  /\ ((length chunks0 < length chunks1)%nat
      \/ (length chunks0 = length chunks1 /\ cnt0 <= cnt1)).

(** The seeding that the specification describes, for comparison with
    [overlapSeed]: walk backward from the end of the closed chunk,
    accumulating counts until the accumulated count is at least [overlap] or
    the start is reached; the trailing slice walked over is the seed and its
    total is the running sum. *)
Fixpoint spec_walk (reversed : list TokenCount) (overlap acc : Z)
  (seed : list TokenCount) : list TokenCount * Z :=
  match reversed with
  | [] => (seed, acc)
  | tc :: before =>
      if acc <? overlap then spec_walk before overlap (acc + count tc) (tc :: seed)
      else (seed, acc)
  end.

Definition spec_overlapSeed (chunk : list TokenCount) (overlap : Z)
  : list TokenCount * Z :=
  spec_walk (rev chunk) overlap 0 [].

(** A code unit that the splitter does not match. *)
Definition plain (c : code_unit) : bool :=
  negb (CharClass.space c) && negb (CharClass.punctuation c).

(** A substring of one kind: whitespace only, punctuation only, or free of
    both. *)
Definition one_kind (tok : jsstring) : Prop :=
  forallb CharClass.space tok = true
  \/ forallb CharClass.punctuation tok = true
  \/ forallb plain tok = true.

(** The sum of the totals of a list of chunks. *)
Definition grand_total (chunks : list (list TokenCount)) : Z :=
  fold_right (fun chunk acc => total chunk + acc) 0 chunks.

(** [next] starts with a non-empty tail of [previous] and goes on with at
    least one more pair. *)
Definition seeded_by (previous next : list TokenCount) : Prop :=
  exists front seed fresh,
    previous = front ++ seed /\ next = seed ++ fresh
    /\ seed <> [] /\ fresh <> [].

(** The first pair of the input is above the budget. *)
Definition first_pair_exceeds (counts : list TokenCount) (maxTokens : Z) : Prop :=
  exists tok rest, counts = tok :: rest /\ maxTokens < count tok.

(** [piece] is a contiguous part of [whole]. *)
Definition piece_of {A} (whole piece : list A) : Prop :=
  exists before after, whole = before ++ piece ++ after.

(** The three kinds of code unit that the splitter tells apart. *)
Inductive kind : Type := Whitespace | Punctuation | Text.

Definition kind_of (c : code_unit) : kind :=
  if CharClass.space c then Whitespace
  else if CharClass.punctuation c then Punctuation
  else Text.

Definition kind_eqb (k1 k2 : kind) : bool :=
  match k1, k2 with
  | Whitespace, Whitespace | Punctuation, Punctuation | Text, Text => true
  | _, _ => false
  end.

(** The text [s] is empty or starts with a code unit of another kind. *)
Definition starts_apart (k : kind) (s : jsstring) : Prop :=
  match s with
  | [] => True
  | d :: _ => kind_of d <> k
  end.

(** A sequence of maximal runs: each substring is non-empty and of one
    kind, and the next substring starts with another kind. *)
Fixpoint maximal_runs (toks : list jsstring) : Prop :=
  match toks with
  | [] => True
  | tok :: rest =>
      tok <> []
      /\ (exists k, Forall (fun c => kind_of c = k) tok /\ starts_apart k (concat rest))
      /\ maximal_runs rest
  end.

(** The inputs of the repository's tests; u-umlaut is the code unit 0xFC. *)
Definition hello : jsstring := js "Hello, world! This is a short sentence.".

Definition german : jsstring :=
  js "Die p" ++ [0xFC] ++ js "nktlich gew" ++ [0xFC] ++ js "nschte Tr" ++ [0xFC]
  ++ js "ffelf" ++ [0xFC] ++ js "llung im " ++ [0xFC] ++ js "bergest" ++ [0xFC]
  ++ js "lpten W" ++ [0xFC] ++ js "rzk" ++ [0xFC] ++ js "mmel-W" ++ [0xFC]
  ++ js "rfel ist k" ++ [0xFC] ++ js "mmerlich und d" ++ [0xFC] ++ js "rfte f"
  ++ [0xFC] ++ js "rderhin zu R" ++ [0xFC] ++ js "ffeln in H" ++ [0xFC]
  ++ js "lle und F" ++ [0xFC] ++ js "lle f" ++ [0xFC] ++ js "hren".

Definition chunkCount (r : result (list jsstring)) : option nat :=
  match r with Ok out => Some (length out) | TypeError => None end.

(** * Properties *)

(** ** Segmenter *)

Section Segmenter.

Lemma span_app cls s run rest : span cls s = (run, rest) -> run ++ rest = s.
Proof.
  revert run rest; induction s as [|c s IH]; intros run rest; simpl.
  - intros [= <- <-]; reflexivity.
  - destruct (cls c).
    + destruct (span cls s) as [r1 r2] eqn:E. intros [= <- <-].
      simpl. rewrite (IH r1 r2 eq_refl). reflexivity.
    + intros [= <- <-]. reflexivity.
Qed.

Lemma match_splitter_app s cap rest :
  match_splitter s = Some (cap, rest) -> cap ++ rest = s.
Proof.
  destruct s as [|c s]; [discriminate|]. unfold match_splitter.
  destruct (CharClass.space c); [|destruct (CharClass.punctuation c)];
    try discriminate; intros H.
  - apply (span_app CharClass.space (c :: s)). congruence.
  - apply (span_app CharClass.punctuation (c :: s)). congruence.
Qed.

(** The split loses nothing: pending substring, captures and tail, in
    order, are the text. *)
Lemma split_loop_concat p s : concat (split_loop p s) = p ++ s.
Proof.
  funelim (split_loop p s).
  - simpl. reflexivity.
  - simpl. rewrite H. simpl.
    rewrite (match_splitter_app _ _ _ Hm). reflexivity.
  - rewrite H, <- app_assoc. reflexivity.
Qed.

Lemma filter_Boolean_concat (l : list jsstring) :
  concat (filter Boolean l) = concat l.
Proof.
  induction l as [|x l IH]; simpl; [reflexivity|].
  destruct x; simpl; rewrite IH; reflexivity.
Qed.

Lemma roughTokens_concat input : concat (roughTokens input) = input.
Proof.
  unfold roughTokens, split.
  rewrite filter_Boolean_concat. apply split_loop_concat.
Qed.

Lemma roughTokens_nonempty input tok : In tok (roughTokens input) -> tok <> [].
Proof.
  unfold roughTokens. rewrite filter_In. intros [_ H] ->. discriminate.
Qed.

Lemma tokens_of_chunks input :
  map token (approximateTokenChunks input) = roughTokens input.
Proof.
  unfold approximateTokenChunks. rewrite map_map. simpl. apply map_id.
Qed.

Lemma tokens_concat input :
  concat (map token (approximateTokenChunks input)) = input.
Proof. rewrite tokens_of_chunks. apply roughTokens_concat. Qed.

End Segmenter.

(** C1. For every input string, concatenating the substrings of the pairs
    returned by [approximateTokenChunks], in order, reproduces the input
    exactly. *)
Theorem approximateTokenChunks_lossless (input : jsstring) :
  concat (map token (approximateTokenChunks input)) = input.
Proof. apply tokens_concat. Qed.

(** ** Token estimator *)

Section Estimator.

Lemma ceil_div_pos a b : 0 < a -> 0 < b -> 1 <= ceil_div a b.
Proof.
  intros Ha Hb. unfold ceil_div.
  assert (- a / b < 0) by (apply Z.div_lt_upper_bound; lia).
  lia.
Qed.

(** [ceil_div] is the ceiling of the quotient. *)
Lemma ceil_div_spec a b q :
  0 < b -> (ceil_div a b = q <-> b * (q - 1) < a <= b * q).
Proof.
  intros Hb. unfold ceil_div.
  pose proof (Z.div_mod (- a) b ltac:(lia)) as E.
  pose proof (Z.mod_pos_bound (- a) b Hb) as B.
  split; intros H; nia.
Qed.

Lemma code_points_nonneg s : 0 <= code_points s.
Proof.
  enough (H : forall n s, (length s <= n)%nat -> 0 <= code_points s)
    by exact (H (length s) s (le_n _)).
  clear s. induction n as [|n IH]; intros [|c s] Hlen; cbn [length] in Hlen;
    try (simpl; lia).
  destruct s as [|d s]; [simpl; lia|]. cbn [length] in Hlen.
  change (code_points (c :: d :: s))
    with (if is_high_surrogate c && is_low_surrogate d
          then 1 + code_points s else 1 + code_points (d :: s)).
  destruct (is_high_surrogate c && is_low_surrogate d).
  - assert (0 <= code_points s) by (apply IH; lia). lia.
  - assert (0 <= code_points (d :: s)) by (apply IH; cbn [length]; lia). lia.
Qed.

Lemma code_points_pos s : s <> [] -> 1 <= code_points s.
Proof.
  destruct s as [|c s]; [congruence|]. intros _.
  destruct s as [|d s]; [simpl; lia|].
  change (code_points (c :: d :: s))
    with (if is_high_surrogate c && is_low_surrogate d
          then 1 + code_points s else 1 + code_points (d :: s)).
  destruct (is_high_surrogate c && is_low_surrogate d).
  - pose proof (code_points_nonneg s). lia.
  - pose proof (code_points_nonneg (d :: s)). lia.
Qed.

Lemma languageAverage_cases tok :
  languageAverage tok = Some 3 \/ languageAverage tok = None.
Proof.
  unfold languageAverage. simpl.
  destruct (test_some CharClass.umlaut tok); simpl; auto.
Qed.

Lemma countOf_whitespace tok : WHITESPACE_RE tok = true -> countOf tok = 0.
Proof. unfold countOf. intros ->. reflexivity. Qed.

Lemma countOf_pos tok :
  tok <> [] -> WHITESPACE_RE tok = false -> 1 <= countOf tok.
Proof.
  intros Hne Hws. unfold countOf. rewrite Hws.
  destruct (CJK_RE tok); [apply code_points_pos; assumption|].
  destruct (NUMERIC_SEQUENCE_RE tok); [lia|].
  destruct (jslength tok <=? 3) eqn:Hlen; [lia|].
  apply Z.leb_gt in Hlen.
  destruct (PUNCTUATION_RE tok).
  - destruct (1 <? jslength tok); [apply ceil_div_pos; lia | lia].
  - destruct (ALPHANUMERIC_RE tok || truthy (languageAverage tok)).
    + apply ceil_div_pos; [lia|].
      destruct (languageAverage_cases tok) as [-> | ->]; simpl;
        unfold DEFAULT_AVERAGE_CHARS_PER_TOKEN; lia.
    + apply code_points_pos; assumption.
Qed.

(** On a non-empty string [/^\s+$/] holds when every code unit is
    whitespace. *)
Lemma WHITESPACE_RE_forallb tok :
  tok <> [] -> WHITESPACE_RE tok = forallb CharClass.space tok.
Proof. destruct tok; [congruence | reflexivity]. Qed.

(** The fifth rule, as the code reaches it: the first four tests fail and
    the token has a punctuation code unit. *)
Lemma countOf_punctuation tok :
  WHITESPACE_RE tok = false ->
  CJK_RE tok = false ->
  NUMERIC_SEQUENCE_RE tok = false ->
  3 < jslength tok ->
  PUNCTUATION_RE tok = true ->
  countOf tok = ceil_div (jslength tok) 2.
Proof.
  intros H1 H2 H3 H4 H5. unfold countOf. rewrite H1, H2, H3, H5.
  destruct (jslength tok <=? 3) eqn:E; [apply Z.leb_le in E; lia|].
  destruct (1 <? jslength tok) eqn:E1; [reflexivity|].
  apply Z.ltb_ge in E1. lia.
Qed.

Lemma countOf_nonneg input tc :
  In tc (approximateTokenChunks input) -> 0 <= count tc.
Proof.
  unfold approximateTokenChunks. rewrite in_map_iff.
  intros (tok & <- & Hin). simpl.
  destruct (WHITESPACE_RE tok) eqn:E.
  - rewrite (countOf_whitespace _ E). lia.
  - pose proof (countOf_pos tok (roughTokens_nonempty _ _ Hin) E). lia.
Qed.

End Estimator.

(** C10. Every pair produced by [approximateTokenChunks] has count 0 if and
    only if its substring consists entirely of whitespace; a pair whose
    substring is not whitespace-only has count at least 1; every count is
    non-negative. *)
Theorem count_zero_iff_whitespace (input : jsstring) (tc : TokenCount) :
  In tc (approximateTokenChunks input) ->
  (count tc = 0 <-> forallb CharClass.space (token tc) = true)
  /\ (forallb CharClass.space (token tc) = false -> 1 <= count tc)
  /\ 0 <= count tc.
Proof.
  intros Hin. pose proof (countOf_nonneg _ _ Hin) as Hnn.
  unfold approximateTokenChunks in Hin. rewrite in_map_iff in Hin.
  destruct Hin as (tok & <- & Hin). simpl in *.
  pose proof (roughTokens_nonempty _ _ Hin) as Hne.
  rewrite <- (WHITESPACE_RE_forallb _ Hne).
  destruct (WHITESPACE_RE tok) eqn:E.
  - rewrite (countOf_whitespace _ E). repeat split; auto; discriminate.
  - pose proof (countOf_pos _ Hne E). repeat split; auto; try lia; discriminate.
Qed.

Lemma count_zero_iff_whitespace_witness :
  let tc := {| token := js " "; count := 0 |} in
  In tc (approximateTokenChunks hello)
  /\ ((count tc = 0 <-> forallb CharClass.space (token tc) = true)
      /\ (forallb CharClass.space (token tc) = false -> 1 <= count tc)
      /\ 0 <= count tc).
Proof.
  assert (H : In {| token := js " "; count := 0 |} (approximateTokenChunks hello))
    by (vm_compute; tauto).
  split; [exact H | exact (count_zero_iff_whitespace hello _ H)].
Defined.

Lemma forallb_test_some (cls : code_unit -> bool) tok :
  tok <> [] -> forallb cls tok = true -> test_some cls tok = true.
Proof.
  destruct tok as [|c tok]; [congruence|]. intros _. simpl.
  intros H. apply andb_true_iff in H. destruct H as [-> _]. reflexivity.
Qed.

(** C5, as the code has it.  For every substring produced by the segmenter
    that is not whitespace-only, has no CJK code unit, does not match the
    numeric-sequence pattern of the code (that is, has no digit, no period
    and no comma) and is longer than 3: if it consists of punctuation only,
    its count is the ceiling of length / 2. *)
Theorem punctuation_rule (input : jsstring) (tc : TokenCount) :
  In tc (approximateTokenChunks input) ->
  WHITESPACE_RE (token tc) = false ->
  CJK_RE (token tc) = false ->
  NUMERIC_SEQUENCE_RE (token tc) = false ->
  3 < jslength (token tc) ->
  forallb CharClass.punctuation (token tc) = true ->
  count tc = ceil_div (jslength (token tc)) 2.
Proof.
  intros Hin Hws Hcjk Hnum Hlen Hp.
  unfold approximateTokenChunks in Hin. rewrite in_map_iff in Hin.
  destruct Hin as (tok & <- & Hin). simpl in *.
  apply countOf_punctuation; try assumption.
  apply forallb_test_some; [|assumption].
  exact (roughTokens_nonempty _ _ Hin).
Qed.

Lemma punctuation_rule_witness :
  let tc := {| token := js "?!?!"; count := 2 |} in
  In tc (approximateTokenChunks (js "Really?!?!"))
  /\ WHITESPACE_RE (token tc) = false
  /\ CJK_RE (token tc) = false
  /\ NUMERIC_SEQUENCE_RE (token tc) = false
  /\ 3 < jslength (token tc)
  /\ forallb CharClass.punctuation (token tc) = true
  /\ count tc = ceil_div (jslength (token tc)) 2.
Proof.
  assert (Hin : In {| token := js "?!?!"; count := 2 |}
                   (approximateTokenChunks (js "Really?!?!")))
    by (vm_compute; tauto).
  split; [exact Hin|]. do 5 (split; [reflexivity|]).
  apply (punctuation_rule (js "Really?!?!") _ Hin); reflexivity.
Defined.

(** C5, as stated, fails.  The substring "(...)" is produced by the
    segmenter, is not whitespace, has no CJK code unit and no digit, has
    length 5 and consists of punctuation only; the ceiling of 5 / 2 is 3.
    Its count is 1: the numeric test of the code is not anchored and holds
    as soon as a period or a comma occurs. *)
Lemma punctuation_with_period_counts_one :
  let tc := {| token := js "(...)"; count := 1 |} in
  approximateTokenChunks (js "(...)") = [tc]
  /\ WHITESPACE_RE (token tc) = false
  /\ CJK_RE (token tc) = false
  /\ test_some CharClass.digit (token tc) = false
  /\ 3 < jslength (token tc)
  /\ forallb CharClass.punctuation (token tc) = true
  /\ NUMERIC_SEQUENCE_RE (token tc) = true
  /\ count tc <> ceil_div (jslength (token tc)) 2.
Proof.
  cbv zeta. repeat split; try (vm_compute; reflexivity).
  vm_compute. discriminate.
Qed.

(** C6. [approximateTokenSize("Hello, world! This is a short sentence.")]
    returns exactly 11. *)
Theorem approximateTokenSize_hello : approximateTokenSize hello = 11.
Proof. vm_compute. reflexivity. Qed.

(** ** Chunker without overlap *)

Section NoOverlap.

Variable maxTokens : Z.

Lemma step_no_overlap overlap st tok :
  overlap <= 0 -> step maxTokens overlap st tok = Ok (step0 maxTokens st tok).
Proof.
  intros Ho. destruct st as [[chunks chunk] cnt]. unfold step, closeChunk, step0.
  destruct (maxTokens <? cnt + count tok); simpl; [|reflexivity].
  destruct (0 <? overlap) eqn:E; [apply Z.ltb_lt in E; lia | reflexivity].
Qed.

(** Without overlap the loop never throws. *)
Lemma loop_no_overlap overlap counts st :
  overlap <= 0 ->
  loop maxTokens overlap st counts = Ok (fold_left (step0 maxTokens) counts st).
Proof.
  intros Ho. revert st. induction counts as [|tok counts IH]; intros st; simpl.
  - reflexivity.
  - rewrite (step_no_overlap _ _ _ Ho). simpl. apply IH.
Qed.

Lemma pairs_step0 st tok : pairs (step0 maxTokens st tok) = pairs st ++ [tok].
Proof.
  destruct st as [[chunks chunk] cnt]. unfold step0, pairs.
  destruct (maxTokens <? cnt + count tok).
  - rewrite concat_app. simpl. rewrite app_nil_r. reflexivity.
  - rewrite app_assoc. reflexivity.
Qed.

Lemma pairs_fold counts st :
  pairs (fold_left (step0 maxTokens) counts st) = pairs st ++ counts.
Proof.
  revert st. induction counts as [|tok counts IH]; intros st; simpl.
  - rewrite app_nil_r. reflexivity.
  - rewrite IH, pairs_step0, <- app_assoc. reflexivity.
Qed.

Lemma concat_finish st : concat (finish st) = pairs st.
Proof.
  destruct st as [[chunks chunk] cnt]. unfold finish, pairs.
  destruct chunk as [|t chunk].
  - rewrite app_nil_r. reflexivity.
  - rewrite concat_app. simpl. rewrite app_nil_r. reflexivity.
Qed.

Lemma chunkPairs_no_overlap counts :
  chunkPairs counts maxTokens 0
  = Ok (finish (fold_left (step0 maxTokens) counts ([], [], 0))).
Proof.
  unfold chunkPairs. rewrite loop_no_overlap by lia. reflexivity.
Qed.

(** The chunks partition the pairs. *)
Lemma chunkPairs_partition counts :
  exists chunks, chunkPairs counts maxTokens 0 = Ok chunks /\ concat chunks = counts.
Proof.
  eexists. split; [apply chunkPairs_no_overlap|].
  rewrite concat_finish, pairs_fold. reflexivity.
Qed.

Lemma joinTokens_concat (chunks : list (list TokenCount)) :
  concat (map joinTokens chunks) = joinTokens (concat chunks).
Proof.
  unfold joinTokens. induction chunks as [|c chunks IH]; simpl; [reflexivity|].
  rewrite IH, map_app, concat_app. reflexivity.
Qed.

Lemma chunkByMaxTokens_partition input :
  exists out, chunkByMaxTokens input maxTokens 0 = Ok out /\ concat out = input.
Proof.
  destruct (chunkPairs_partition (approximateTokenChunks input)) as (chunks & E & Hc).
  exists (map joinTokens chunks). unfold chunkByMaxTokens. rewrite E. simpl.
  split; [reflexivity|].
  rewrite joinTokens_concat, Hc. apply tokens_concat.
Qed.

(** *** The budget *)

Lemma total_app c1 c2 : total (c1 ++ c2) = total c1 + total c2.
Proof. unfold total. induction c1 as [|t c1 IH]; simpl; lia. Qed.

Lemma budget_step0 st tok :
  budget_invariant maxTokens st ->
  budget_invariant maxTokens (step0 maxTokens st tok).
Proof.
  destruct st as [[chunks chunk] cnt]. unfold budget_invariant, step0.
  intros (Hcs & Hcnt & Hc).
  destruct (maxTokens <? cnt + count tok) eqn:E.
  - repeat split.
    + apply Forall_app. split; [assumption | constructor; [assumption | constructor]].
    + simpl. lia.
    + destruct (Z_le_gt_dec (count tok) maxTokens).
      * left. simpl. lia.
      * right. exists tok. split; [reflexivity | lia].
  - apply Z.ltb_ge in E. repeat split.
    + assumption.
    + rewrite total_app. simpl. lia.
    + left. rewrite total_app. simpl. lia.
Qed.

Lemma budget_fold counts st :
  budget_invariant maxTokens st ->
  budget_invariant maxTokens (fold_left (step0 maxTokens) counts st).
Proof.
  revert st. induction counts as [|tok counts IH]; intros st H; simpl.
  - assumption.
  - apply IH, budget_step0, H.
Qed.

Lemma budget_finish st :
  budget_invariant maxTokens st -> Forall (within_budget maxTokens) (finish st).
Proof.
  destruct st as [[chunks chunk] cnt]. unfold budget_invariant, finish.
  intros (Hcs & _ & Hc). destruct chunk; [assumption|].
  apply Forall_app. split; [assumption | constructor; [assumption | constructor]].
Qed.

End NoOverlap.

(** C9. For every input string and every positive [maxTokens], with
    overlap 0 the concatenation of the strings returned by
    [chunkByMaxTokens], in order, is the input string. *)
Theorem chunks_concat_is_input (input : jsstring) (maxTokens : Z) :
  0 < maxTokens ->
  exists out, chunkByMaxTokens input maxTokens 0 = Ok out /\ concat out = input.
Proof. intros _. apply chunkByMaxTokens_partition. Qed.

Lemma chunks_concat_is_input_witness :
  0 < 5 /\ exists out, chunkByMaxTokens hello 5 0 = Ok out /\ concat out = hello.
Proof. split; [lia | apply (chunks_concat_is_input hello 5); lia]. Defined.

(** C2, as the code has it.  For every input string and every positive
    [maxTokens], with overlap 0 the call returns and every emitted chunk has
    a total estimated count of at most [maxTokens], except possibly a chunk
    that holds a single pair whose own count exceeds [maxTokens]. *)
Theorem budget_without_overlap (input : jsstring) (maxTokens : Z) :
  0 < maxTokens ->
  exists chunks,
    chunkPairs (approximateTokenChunks input) maxTokens 0 = Ok chunks
    /\ chunkByMaxTokens input maxTokens 0 = Ok (map joinTokens chunks)
    /\ Forall (within_budget maxTokens) chunks.
Proof.
  intros Hpos. eexists. split; [apply chunkPairs_no_overlap|]. split.
  - unfold chunkByMaxTokens. rewrite chunkPairs_no_overlap. reflexivity.
  - apply budget_finish, budget_fold. simpl.
    repeat split; [constructor | left; simpl; lia].
Qed.

Lemma budget_without_overlap_witness :
  0 < 5 /\
  exists chunks,
    chunkPairs (approximateTokenChunks hello) 5 0 = Ok chunks
    /\ chunkByMaxTokens hello 5 0 = Ok (map joinTokens chunks)
    /\ Forall (within_budget 5) chunks.
Proof. split; [lia | apply (budget_without_overlap hello 5); lia]. Defined.

(** C2, as stated, fails with an overlap: for maxTokens 3 and overlap 1 the
    third chunk of "sentence sentence sentence" holds three pairs, none
    above 3, of total count 4. *)
Lemma budget_fails_with_overlap :
  exists chunks,
    chunkPairs (approximateTokenChunks (js "sentence sentence sentence")) 3 1 = Ok chunks
    /\ map joinTokens chunks = [js "sentence "; js " sentence"; js "sentence sentence"]
    /\ ~ Forall (within_budget 3) chunks.
Proof.
  eexists. split; [vm_compute; reflexivity|]. split; [reflexivity|].
  intros H. rewrite Forall_forall in H.
  match type of H with
  | forall x, In x [_; _; ?c] -> _ =>
      destruct (H c) as [Hle | (pair & Heq & _)]
  end.
  - simpl. tauto.
  - vm_compute in Hle. apply Hle. reflexivity.
  - discriminate Heq.
Qed.

(** ** A non-positive budget *)

Section NegativeBudget.

Variable maxTokens : Z.
Hypothesis negative : maxTokens < 0.


End NegativeBudget.

Lemma approximateTokenChunks_nonneg input :
  Forall nonneg (approximateTokenChunks input).
Proof. apply Forall_forall. intros tc. apply countOf_nonneg. Qed.




(** ** Chunker with overlap *)

Section Overlap.

Variables maxTokens overlap : Z.

Lemma Forall_slice {A} (P : A -> Prop) (a : list A) (start : Z) :
  Forall P a -> Forall P (slice a start).
Proof.
  unfold slice. intros H.
  set (k := Z.to_nat _). rewrite <- (firstn_skipn k a) in H.
  apply Forall_app in H. apply H.
Qed.

Lemma overlapWalk_nonneg chunk i cnt r :
  Forall nonneg chunk -> 0 <= cnt ->
  overlapWalk chunk overlap i cnt = Ok r -> 0 <= snd r.
Proof.
  intros Hnn. revert cnt. induction i as [|i IH]; intros cnt Hcnt; simpl.
  - intros [= <-]. assumption.
  - destruct (cnt <? overlap).
    + destruct (nth_error chunk i) as [t|] eqn:E; [|discriminate].
      apply IH. apply nth_error_In in E.
      rewrite Forall_forall in Hnn. specialize (Hnn _ E). unfold nonneg in Hnn. lia.
    + intros [= <-]. assumption.
Qed.

Lemma overlapSeed_nonneg chunk r :
  Forall nonneg chunk ->
  overlapSeed chunk overlap = Ok r -> Forall nonneg (fst r) /\ 0 <= snd r.
Proof.
  intros Hnn. unfold overlapSeed.
  destruct (Z.of_nat (length chunk) - 1 <? 0).
  - destruct (0 <? overlap); [discriminate|]. simpl. intros [= <-]. simpl.
    split; [apply Forall_slice; assumption | lia].
  - destruct (overlapWalk _ _ _ _) as [w|] eqn:E; [|discriminate].
    simpl. intros [= <-]. simpl.
    split; [apply Forall_slice; assumption|].
    exact (overlapWalk_nonneg _ _ _ _ Hnn (Z.le_refl 0) E).
Qed.

Lemma ahead_step st0 st1 st1' tok :
  0 <= count tok ->
  ahead st0 st1 ->
  step maxTokens overlap st1 tok = Ok st1' ->
  ahead (step0 maxTokens st0 tok) st1'.
Proof.
  intros Htok. assert (Htok' : nonneg tok) by exact Htok.
  destruct st0 as [[chunks0 chunk0] cnt0], st1 as [[chunks1 chunk1] cnt1].
  intros (Hcnt1 & Hnn & Hempty & Hlex). unfold step, closeChunk.
  assert (Hsnoc : forall (c0 c1 : list TokenCount), c0 ++ [tok] = [] <-> c1 ++ [tok] = []).
  { intros c0 c1. split; intros H; destruct (app_cons_not_nil _ _ _ (eq_sym H)). }
  assert (Hone : forall c1 : list TokenCount, [tok] = [] <-> c1 ++ [tok] = []).
  { intros c1. exact (Hsnoc [] c1). }
  destruct (maxTokens <? cnt1 + count tok) eqn:E1.
  - (* the run with overlap closes *)
    destruct (0 <? overlap).
    + destruct (overlapSeed chunk1 overlap) as [[seed c]|] eqn:Es; [|discriminate].
      destruct (overlapSeed_nonneg _ _ Hnn Es) as [Hseed Hc]. simpl in Hseed, Hc.
      simpl. intros [= <-]. unfold step0.
      destruct (maxTokens <? cnt0 + count tok) eqn:E0; unfold ahead;
        rewrite ?length_app; simpl;
        (split; [lia|]);
        (split; [apply Forall_app; split; [assumption | repeat constructor; assumption]|]);
        (split; [auto|]); lia.
    + simpl. intros [= <-]. unfold step0.
      destruct (maxTokens <? cnt0 + count tok) eqn:E0; unfold ahead;
        rewrite ?length_app; simpl;
        (split; [lia|]);
        (split; [repeat constructor; assumption|]);
        (split; [first [exact (Hone []) | exact (Hsnoc chunk0 [])]|]); lia.
  - (* the run with overlap keeps its chunk *)
    simpl. intros [= <-]. unfold step0.
    apply Z.ltb_ge in E1.
    destruct (maxTokens <? cnt0 + count tok) eqn:E0;
      [apply Z.ltb_lt in E0 | apply Z.ltb_ge in E0]; unfold ahead;
      rewrite ?length_app; simpl;
      (split; [lia|]);
      (split; [apply Forall_app; split; [assumption | repeat constructor; assumption]|]);
      (split; [auto|]); lia.
Qed.

Lemma ahead_loop counts st0 st1 st1' :
  Forall nonneg counts ->
  ahead st0 st1 ->
  loop maxTokens overlap st1 counts = Ok st1' ->
  ahead (fold_left (step0 maxTokens) counts st0) st1'.
Proof.
  intros Hnn. revert st0 st1.
  induction Hnn as [|tok counts Htok Hnn IH]; intros st0 st1 Ha; simpl.
  - intros [= <-]. assumption.
  - destruct (step maxTokens overlap st1 tok) as [st1''|] eqn:E; [|discriminate].
    simpl. apply IH. exact (ahead_step _ _ _ _ Htok Ha E).
Qed.

Lemma ahead_finish st0 st1 :
  ahead st0 st1 -> (length (finish st0) <= length (finish st1))%nat.
Proof.
  destruct st0 as [[chunks0 chunk0] cnt0], st1 as [[chunks1 chunk1] cnt1].
  intros (_ & _ & Hempty & Hlex). unfold finish.
  destruct chunk0 as [|t0 chunk0], chunk1 as [|t1 chunk1];
    rewrite ?length_app; simpl; try lia.
  destruct Hempty as [_ H]. specialize (H eq_refl). discriminate.
Qed.

(** Whenever the chunker returns, it has emitted at least as many chunks
    as the chunker without overlap. *)
Lemma chunkPairs_overlap_more counts chunks :
  Forall nonneg counts ->
  chunkPairs counts maxTokens overlap = Ok chunks ->
  exists chunks0,
    chunkPairs counts maxTokens 0 = Ok chunks0
    /\ (length chunks0 <= length chunks)%nat.
Proof.
  intros Hnn. unfold chunkPairs at 1.
  destruct (loop maxTokens overlap ([], [], 0) counts) as [st1|] eqn:E; [|discriminate].
  simpl. intros [= <-].
  eexists. split; [apply chunkPairs_no_overlap|].
  apply ahead_finish. apply (ahead_loop counts ([], [], 0) ([], [], 0) st1 Hnn); [|exact E].
  unfold ahead. repeat split; auto with zarith.
Qed.

End Overlap.

(** X24. Whenever [chunkByMaxTokens] returns, whatever the budget and the
    overlap, it has emitted at least as many chunks as the same call with
    overlap 0. *)
Theorem overlap_never_fewer_than_none
  (input : jsstring) (maxTokens overlap : Z) (out : list jsstring) :
  chunkByMaxTokens input maxTokens overlap = Ok out ->
  exists out0,
    chunkByMaxTokens input maxTokens 0 = Ok out0
    /\ (length out0 <= length out)%nat.
Proof.
  unfold chunkByMaxTokens.
  destruct (chunkPairs _ maxTokens overlap) as [chunks|] eqn:E; [|discriminate].
  simpl. intros [= <-].
  destruct (chunkPairs_overlap_more _ _ _ _ (approximateTokenChunks_nonneg input) E)
    as (chunks0 & E0 & Hlen).
  rewrite E0. simpl. eexists. split; [reflexivity|].
  rewrite !length_map. exact Hlen.
Qed.

Lemma overlap_never_fewer_than_none_witness :
  chunkByMaxTokens hello 3 1
  = Ok [js "Hello, world"; js "Hello, world! This "; js " This is a ";
        js " a short "; js " short sentence"; js " short sentence."] /\
  exists out0, chunkByMaxTokens hello 3 0 = Ok out0 /\ (length out0 <= 6)%nat.
Proof.
  assert (E : chunkByMaxTokens hello 3 1
              = Ok [js "Hello, world"; js "Hello, world! This "; js " This is a ";
                    js " a short "; js " short sentence"; js " short sentence."])
    by (vm_compute; reflexivity).
  split; [exact E|].
  exact (overlap_never_fewer_than_none hello 3 1 _ E).
Defined.

(** C7.  Increasing the overlap with [maxTokens] fixed should never decrease
    the number of chunks.  For maxTokens 2 the input "a b sentence sentence"
    gives four chunks with overlap 1 and three chunks with overlap 2.  The
    loss comes from the backward walk of C3: at the second closing with
    overlap 2 the closed chunk is " sentence"; the walk seeds "sentence"
    (count 2) and leaves the running count at 0, where the described walk
    sets it to 2, so the next "sentence" is taken into the same chunk. *)
Theorem overlap_not_monotone :
  (exists out1 out2,
    chunkByMaxTokens (js "a b sentence sentence") 2 1 = Ok out1
    /\ chunkByMaxTokens (js "a b sentence sentence") 2 2 = Ok out2
    /\ out1 = [js "a b "; js " b sentence"; js " b sentence "; js " sentence sentence"]
    /\ out2 = [js "a b "; js " sentence"; js "sentence sentence"]
    /\ (length out2 < length out1)%nat)
  /\ overlapSeed (approximateTokenChunks (js " sentence")) 2
     = Ok (approximateTokenChunks (js "sentence"), 0)
  /\ spec_overlapSeed (approximateTokenChunks (js " sentence")) 2
     = (approximateTokenChunks (js "sentence"), 2).
Proof.
  split; [|split; vm_compute; reflexivity].
  do 2 eexists. split; [vm_compute; reflexivity|].
  split; [vm_compute; reflexivity|].
  repeat split. simpl. lia.
Qed.

(** ** The defects of the closing step *)

Section ClosingStep.

Variables maxTokens overlap : Z.
Hypothesis positive_overlap : 0 < overlap.

(** The walk starts below the last pair: a closed chunk of one pair seeds
    that pair with a running count of 0. *)
Lemma overlapSeed_singleton tc : overlapSeed [tc] overlap = Ok ([tc], 0).
Proof. reflexivity. Qed.

(** A walk that reaches the start seeds only the last pair, while the
    running count is that of all the others. *)
Lemma overlapSeed_pair tc1 tc2 : overlapSeed [tc1; tc2] overlap = Ok ([tc2], 0 + count tc1).
Proof.
  unfold overlapSeed. simpl.
  destruct (0 <? overlap) eqn:E; [|apply Z.ltb_ge in E; lia].
  reflexivity.
Qed.

(** Closing the empty initial chunk throws. *)
Lemma oversized_first_pair_throws tok counts :
  maxTokens < count tok ->
  chunkPairs (tok :: counts) maxTokens overlap = TypeError.
Proof.
  intros H. unfold chunkPairs. simpl. unfold step, closeChunk.
  destruct (maxTokens <? 0 + count tok) eqn:E; [|apply Z.ltb_ge in E; lia].
  destruct (0 <? overlap) eqn:Eo; [|apply Z.ltb_ge in Eo; lia].
  unfold overlapSeed. simpl. rewrite Eo. reflexivity.
Qed.

End ClosingStep.

Lemma step0_chunks_grow maxTokens counts st :
  exists more, fst (fst (fold_left (step0 maxTokens) counts st)) = fst (fst st) ++ more.
Proof.
  revert st. induction counts as [|tok counts IH]; intros st; simpl.
  - exists []. rewrite app_nil_r. reflexivity.
  - destruct (IH (step0 maxTokens st tok)) as (more & ->).
    destruct st as [[chunks chunk] cnt]. unfold step0.
    destruct (maxTokens <? cnt + count tok); simpl.
    + exists ([chunk] ++ more). rewrite <- app_assoc. reflexivity.
    + exists more. reflexivity.
Qed.

(** Without overlap, a first pair above the budget closes the empty initial
    chunk, which is emitted. *)
Lemma oversized_first_pair_emits_empty maxTokens tok counts :
  maxTokens < count tok ->
  exists chunks, chunkPairs (tok :: counts) maxTokens 0 = Ok ([] :: chunks).
Proof.
  intros H. rewrite chunkPairs_no_overlap. cbn [fold_left].
  assert (E : step0 maxTokens ([], [], 0) tok = ([[]], [tok], 0 + count tok)).
  { unfold step0. destruct (maxTokens <? 0 + count tok) eqn:E;
      [reflexivity | apply Z.ltb_ge in E; lia]. }
  rewrite E.
  destruct (step0_chunks_grow maxTokens counts ([[]], [tok], 0 + count tok)) as (more & Hm).
  destruct (fold_left _ _ _) as [[chunks chunk] cnt]. simpl in Hm. subst chunks.
  unfold finish. destruct chunk; simpl; eauto.
Qed.

(** C3.  At the first closing of "Hello, world! This is a short sentence."
    with maxTokens 3 and overlap 1 the closed chunk is "Hello, world", of
    total count 3.  Walking backward from its end, the pair "world" alone
    reaches the overlap: the described seed is that pair, with running sum
    1.  The code seeds the whole closed chunk and sets the running sum to 1,
    which is not the total of the seed; the second emitted chunk is the
    first one followed by the next pairs. *)
Theorem overlap_seed_of_first_chunk :
  let closed := approximateTokenChunks (js "Hello, world") in
  overlapSeed closed 1 = Ok (closed, 1)
  /\ total closed = 3
  /\ spec_overlapSeed closed 1 = ([ {| token := js "world"; count := 1 |} ], 1)
  /\ (exists later,
        chunkPairs (approximateTokenChunks hello) 3 1
        = Ok (closed :: (closed ++ approximateTokenChunks (js "! This ")) :: later))
  /\ chunkByMaxTokens hello 3 1
     = Ok [js "Hello, world"; js "Hello, world! This "; js " This is a ";
           js " a short "; js " short sentence"; js " short sentence."].
Proof.
  cbv zeta. repeat split; try (vm_compute; reflexivity).
  eexists. vm_compute. reflexivity.
Qed.

(** C4.  With maxTokens 1 the single pair of "sentence" has count 2: the
    closing step fires on the empty initial chunk.  Without overlap an empty
    chunk is emitted before the pair; with overlap 1 the call throws and
    nothing is returned. *)
Theorem oversized_first_pair_closes_empty_chunk :
  chunkPairs (approximateTokenChunks (js "sentence")) 1 0
  = Ok [ []; [ {| token := js "sentence"; count := 2 |} ] ]
  /\ chunkByMaxTokens (js "sentence") 1 0 = Ok [ []; js "sentence" ]
  /\ chunkByMaxTokens (js "sentence") 1 1 = TypeError.
Proof. repeat split; vm_compute; reflexivity. Qed.

(** ** The tests of the repository *)

Example test_chunks_english : chunkCount (chunkByMaxTokens hello 5 0) = Some 3%nat.
Proof. vm_compute. reflexivity. Qed.

Example test_chunks_german : chunkCount (chunkByMaxTokens german 5 0) = Some 12%nat.
Proof. vm_compute. reflexivity. Qed.

Example test_size_german : approximateTokenSize german = 49.
Proof. vm_compute. reflexivity. Qed.

Example test_within_limit :
  isWithinTokenLimit (js "Short input.") 10 = true
  /\ isWithinTokenLimit
       (js "This is a much longer input that should exceed the token limit set for this test case.")
       10 = false.
Proof. split; vm_compute; reflexivity. Qed.

(** The fifth rule where the numeric test does fail. *)
Example test_punctuation_run : countOf (js "?!?!") = 2.
Proof.
  rewrite countOf_punctuation; vm_compute; reflexivity.
Qed.

Example test_context_size : getModelContextSize (js "gpt-3.5-turbo") = 4096.
Proof. vm_compute. reflexivity. Qed.

Example test_max_token_size :
  approximateMaxTokenSize (js "This is a test prompt.") (js "gpt-3.5-turbo") 100
  = getModelContextSize (js "gpt-3.5-turbo")
    - approximateTokenSize (js "This is a test prompt.") - 100.
Proof. vm_compute. reflexivity. Qed.

(** * Further properties of the code *)

(** ** The substrings of the segmenter *)

Section Runs.

Lemma span_run cls s run rest : span cls s = (run, rest) -> forallb cls run = true.
Proof.
  revert run rest. induction s as [|c s IH]; intros run rest; simpl.
  - intros [= <- <-]. reflexivity.
  - destruct (cls c) eqn:Hc.
    + destruct (span cls s) as [r1 r2]. intros [= <- <-]. simpl.
      rewrite Hc, (IH r1 r2 eq_refl). reflexivity.
    + intros [= <- <-]. reflexivity.
Qed.

Lemma span_all cls s : forallb cls s = true -> span cls s = (s, []).
Proof.
  induction s as [|c s IH]; simpl; [reflexivity|].
  intros H. apply andb_true_iff in H. destruct H as [Hc Hs].
  rewrite Hc, (IH Hs). reflexivity.
Qed.

Lemma one_of_In cs c : CharClass.one_of cs c = true -> In c cs.
Proof.
  unfold CharClass.one_of. rewrite existsb_exists.
  intros (x & Hin & Heq). apply Z.eqb_eq in Heq. subst. assumption.
Qed.

(** No code unit is both whitespace and punctuation. *)
Lemma space_not_punctuation c :
  CharClass.space c = true -> CharClass.punctuation c = false.
Proof.
  unfold CharClass.space. intros H. apply orb_true_iff in H.
  destruct H as [H | H].
  - apply one_of_In in H. simpl in H.
    repeat (destruct H as [<- | H]; [reflexivity|]). contradiction.
  - unfold CharClass.in_ranges in H. simpl in H.
    rewrite orb_false_r in H. apply andb_true_iff in H.
    destruct H as [Hlo Hhi]. apply Z.leb_le in Hlo, Hhi.
    destruct (CharClass.punctuation c) eqn:Hp; [|reflexivity].
    apply one_of_In in Hp. simpl in Hp.
    repeat (destruct Hp as [<- | Hp]; [simpl in *; lia|]). contradiction.
Qed.

Lemma match_splitter_capture s cap rest :
  match_splitter s = Some (cap, rest) ->
  forallb CharClass.space cap = true \/ forallb CharClass.punctuation cap = true.
Proof.
  destruct s as [|c s]; [discriminate|]. unfold match_splitter.
  destruct (CharClass.space c); [|destruct (CharClass.punctuation c)];
    try discriminate; intros H.
  - left. apply (span_run CharClass.space (c :: s) cap rest). congruence.
  - right. apply (span_run CharClass.punctuation (c :: s) cap rest). congruence.
Qed.

Lemma match_splitter_none c s : match_splitter (c :: s) = None -> plain c = true.
Proof.
  unfold match_splitter, plain.
  destruct (CharClass.space c); [discriminate|].
  destruct (CharClass.punctuation c); [discriminate|]. reflexivity.
Qed.

Lemma match_splitter_plain c s : plain c = true -> match_splitter (c :: s) = None.
Proof.
  unfold match_splitter, plain. intros H. apply andb_true_iff in H.
  destruct H as [H1 H2]. apply negb_true_iff in H1, H2. rewrite H1, H2. reflexivity.
Qed.

(** A delimiter run is matched whole. *)
Lemma match_splitter_run tok :
  tok <> [] ->
  forallb CharClass.space tok = true \/ forallb CharClass.punctuation tok = true ->
  match_splitter tok = Some (tok, []).
Proof.
  destruct tok as [|c s]; [congruence|]. intros _ [H | H]; unfold match_splitter.
  - pose proof H as Hc. simpl in Hc. apply andb_true_iff in Hc. destruct Hc as [Hc _].
    rewrite Hc, (span_all _ _ H). reflexivity.
  - pose proof H as Hc. simpl in Hc. apply andb_true_iff in Hc. destruct Hc as [Hc _].
    destruct (CharClass.space c) eqn:Hs.
    + rewrite (space_not_punctuation _ Hs) in Hc. discriminate.
    + rewrite Hc, (span_all _ _ H). reflexivity.
Qed.

Lemma forallb_snoc {A} (f : A -> bool) l x :
  forallb f (l ++ [x]) = forallb f l && f x.
Proof. rewrite forallb_app. simpl. rewrite andb_true_r. reflexivity. Qed.

Lemma split_loop_one_kind p s :
  forallb plain p = true -> Forall one_kind (split_loop p s).
Proof.
  funelim (split_loop p s); intros Hp.
  - constructor; [right; right; assumption | constructor].
  - constructor; [right; right; assumption|].
    constructor.
    + destruct (match_splitter_capture _ _ _ Hm) as [Hc | Hc];
        [left | right; left]; assumption.
    + apply H. reflexivity.
  - apply H. rewrite forallb_snoc, Hp. simpl.
    exact (match_splitter_none _ _ Hm).
Qed.

Lemma roughTokens_one_kind input : Forall one_kind (roughTokens input).
Proof.
  unfold roughTokens, split. rewrite Forall_forall. intros tok Hin.
  apply filter_In in Hin. destruct Hin as [Hin _].
  pose proof (split_loop_one_kind [] input eq_refl) as H.
  rewrite Forall_forall in H. exact (H tok Hin).
Qed.

(** A text free of whitespace and punctuation is not split. *)
Lemma split_loop_plain p s : forallb plain s = true -> split_loop p s = [p ++ s].
Proof.
  funelim (split_loop p s); intros Hs.
  - rewrite app_nil_r. reflexivity.
  - simpl in Hs. apply andb_true_iff in Hs. destruct Hs as [Hc _].
    pose proof (match_splitter_plain c s' Hc) as Hnone. congruence.
  - simpl in Hs. apply andb_true_iff in Hs. destruct Hs as [_ Hs].
    rewrite (H Hs), <- app_assoc. reflexivity.
Qed.

(** A delimiter run is split into itself, between two empty strings. *)
Lemma split_loop_run p s :
  s <> [] ->
  forallb CharClass.space s = true \/ forallb CharClass.punctuation s = true ->
  split_loop p s = [p; s; []].
Proof.
  funelim (split_loop p s); intros Hne Hrun.
  - congruence.
  - pose proof (match_splitter_run (c :: s') Hne Hrun) as Hsome.
    assert (E : (cap, rest) = (c :: s', [])) by congruence.
    injection E as -> ->. simp split_loop. reflexivity.
  - pose proof (match_splitter_run (c :: s') Hne Hrun) as Hsome. congruence.
Qed.

Lemma roughTokens_token tok :
  tok <> [] -> one_kind tok -> roughTokens tok = [tok].
Proof.
  intros Hne [H | [H | H]]; unfold roughTokens, split.
  - rewrite (split_loop_run [] tok Hne (or_introl H)). simpl.
    destruct tok; [congruence | reflexivity].
  - rewrite (split_loop_run [] tok Hne (or_intror H)). simpl.
    destruct tok; [congruence | reflexivity].
  - rewrite (split_loop_plain [] tok H). simpl.
    destruct tok; [congruence | reflexivity].
Qed.

End Runs.

(** X1. Every substring produced by [approximateTokenChunks] is non-empty
    and of one kind: whitespace only, punctuation only, or free of both. *)
Theorem tokens_are_runs (input : jsstring) (tc : TokenCount) :
  In tc (approximateTokenChunks input) ->
  token tc <> [] /\ one_kind (token tc).
Proof.
  intros Hin. apply (in_map token) in Hin. rewrite tokens_of_chunks in Hin.
  split; [exact (roughTokens_nonempty _ _ Hin)|].
  pose proof (roughTokens_one_kind input) as H.
  rewrite Forall_forall in H. exact (H _ Hin).
Qed.

Lemma tokens_are_runs_witness :
  let tc := {| token := js "world"; count := 1 |} in
  In tc (approximateTokenChunks hello) /\ token tc <> [] /\ one_kind (token tc).
Proof.
  assert (Hin : In {| token := js "world"; count := 1 |} (approximateTokenChunks hello))
    by (vm_compute; tauto).
  split; [exact Hin | exact (tokens_are_runs hello _ Hin)].
Defined.

(** X2. Segmenting is stable: a pair produced by [approximateTokenChunks],
    given back as input, yields exactly that pair. *)
Theorem token_resegments_to_itself (input : jsstring) (tc : TokenCount) :
  In tc (approximateTokenChunks input) ->
  approximateTokenChunks (token tc) = [tc].
Proof.
  intros Hin. unfold approximateTokenChunks in Hin. rewrite in_map_iff in Hin.
  destruct Hin as (tok & <- & Hin). simpl.
  pose proof (roughTokens_one_kind input) as H. rewrite Forall_forall in H.
  unfold approximateTokenChunks.
  rewrite (roughTokens_token tok (roughTokens_nonempty _ _ Hin) (H _ Hin)).
  reflexivity.
Qed.

Lemma token_resegments_to_itself_witness :
  let tc := {| token := js "sentence"; count := 2 |} in
  In tc (approximateTokenChunks hello) /\ approximateTokenChunks (token tc) = [tc].
Proof.
  assert (Hin : In {| token := js "sentence"; count := 2 |} (approximateTokenChunks hello))
    by (vm_compute; tauto).
  split; [exact Hin | exact (token_resegments_to_itself hello _ Hin)].
Defined.

(** ** The size of a text *)

Section Size.

Lemma fold_left_counts l a :
  fold_left (fun acc tc => acc + count tc) l a = a + total l.
Proof.
  revert a. induction l as [|tc l IH]; intros a; simpl; [lia|].
  rewrite IH. unfold total. lia.
Qed.

Lemma approximateTokenSize_total input :
  approximateTokenSize input = total (approximateTokenChunks input).
Proof. unfold approximateTokenSize. rewrite fold_left_counts. lia. Qed.

Lemma code_points_le_length s : code_points s <= jslength s.
Proof.
  enough (H : forall n s, (length s <= n)%nat -> code_points s <= jslength s)
    by exact (H (length s) s (le_n _)).
  clear s. unfold jslength.
  induction n as [|n IH]; intros [|c s] Hlen; cbn [length] in Hlen;
    try (simpl; lia).
  destruct s as [|d s]; [simpl; lia|]. cbn [length] in Hlen.
  change (code_points (c :: d :: s))
    with (if is_high_surrogate c && is_low_surrogate d
          then 1 + code_points s else 1 + code_points (d :: s)).
  destruct (is_high_surrogate c && is_low_surrogate d).
  - assert (code_points s <= Z.of_nat (length s)) by (apply IH; lia).
    cbn [length]. lia.
  - assert (code_points (d :: s) <= Z.of_nat (length (d :: s)))
      by (apply IH; cbn [length]; lia).
    cbn [length] in *. lia.
Qed.

Lemma ceil_div_le a b : 1 <= a -> 1 <= b -> ceil_div a b <= a.
Proof.
  intros Ha Hb.
  destruct (ceil_div_spec a b (ceil_div a b) ltac:(lia)) as [H _].
  specialize (H eq_refl). nia.
Qed.

(** No substring counts for more than its length. *)
Lemma countOf_le_length tok : tok <> [] -> countOf tok <= jslength tok.
Proof.
  intros Hne.
  assert (Hlen : 1 <= jslength tok)
    by (destruct tok; [congruence | unfold jslength; cbn [length]; lia]).
  unfold countOf.
  destruct (WHITESPACE_RE tok); [lia|].
  destruct (CJK_RE tok); [apply code_points_le_length|].
  destruct (NUMERIC_SEQUENCE_RE tok); [lia|].
  destruct (jslength tok <=? 3); [lia|].
  destruct (PUNCTUATION_RE tok).
  - destruct (1 <? jslength tok); [apply ceil_div_le; lia | lia].
  - destruct (ALPHANUMERIC_RE tok || truthy (languageAverage tok)).
    + apply ceil_div_le; [lia|].
      destruct (languageAverage_cases tok) as [-> | ->]; simpl;
        unfold DEFAULT_AVERAGE_CHARS_PER_TOKEN; lia.
    + apply code_points_le_length.
Qed.

Lemma jslength_app a b : jslength (a ++ b) = jslength a + jslength b.
Proof. unfold jslength. rewrite length_app. lia. Qed.

Lemma total_le_length (toks : list jsstring) :
  Forall (fun tok => tok <> []) toks ->
  total (map (fun tok => {| token := tok; count := countOf tok |}) toks)
  <= jslength (concat toks).
Proof.
  induction 1 as [|tok toks Hne _ IH]; simpl; [unfold jslength; simpl; lia|].
  rewrite jslength_app. pose proof (countOf_le_length tok Hne). lia.
Qed.

Lemma total_nonneg l : Forall nonneg l -> 0 <= total l.
Proof. induction 1 as [|tc l H _ IH]; simpl; unfold nonneg in *; lia. Qed.

Lemma approximateTokenSize_bounds input :
  0 <= approximateTokenSize input <= jslength input.
Proof.
  rewrite approximateTokenSize_total. split.
  - apply total_nonneg, approximateTokenChunks_nonneg.
  - unfold approximateTokenChunks.
    rewrite <- (roughTokens_concat input) at 2.
    apply total_le_length. rewrite Forall_forall. intros tok.
    apply roughTokens_nonempty.
Qed.

Lemma total_zero l :
  Forall nonneg l -> total l = 0 -> Forall (fun tc => count tc = 0) l.
Proof.
  induction 1 as [|tc l H Hl IH]; simpl; intros E; constructor.
  - pose proof (total_nonneg l Hl). unfold nonneg in H. lia.
  - apply IH. pose proof (total_nonneg l Hl). unfold nonneg in H. lia.
Qed.

Lemma forallb_concat {A} (f : A -> bool) (ls : list (list A)) :
  forallb f (concat ls) = forallb (forallb f) ls.
Proof.
  induction ls as [|l ls IH]; simpl; [reflexivity|].
  rewrite forallb_app, IH. reflexivity.
Qed.

(** The size is zero exactly on texts of whitespace only. *)
Lemma approximateTokenSize_zero input :
  approximateTokenSize input = 0 <-> forallb CharClass.space input = true.
Proof.
  rewrite approximateTokenSize_total.
  rewrite <- (roughTokens_concat input) at 2. rewrite forallb_concat.
  rewrite forallb_forall. unfold approximateTokenChunks. split.
  - intros E tok Hin.
    pose proof (total_zero _ (approximateTokenChunks_nonneg input) E) as Hz.
    rewrite Forall_forall in Hz.
    specialize (Hz {| token := tok; count := countOf tok |}
                   (in_map _ _ _ Hin)). simpl in Hz.
    pose proof (roughTokens_nonempty _ _ Hin) as Hne.
    rewrite <- (WHITESPACE_RE_forallb _ Hne).
    destruct (WHITESPACE_RE tok) eqn:Hws; [reflexivity|].
    pose proof (countOf_pos tok Hne Hws). lia.
  - intros Hall.
    assert (Hz : forall toks, (forall tok, In tok toks -> In tok (roughTokens input)) ->
                 total (map (fun tok => {| token := tok; count := countOf tok |}) toks) = 0).
    { induction toks as [|tok toks IH]; intros Hsub; simpl; [reflexivity|].
      rewrite IH by (intros t Ht; apply Hsub; right; exact Ht).
      assert (Hin : In tok (roughTokens input)) by (apply Hsub; left; reflexivity).
      rewrite countOf_whitespace; [reflexivity|].
      rewrite (WHITESPACE_RE_forallb _ (roughTokens_nonempty _ _ Hin)).
      exact (Hall tok Hin). }
    apply Hz. auto.
Qed.

End Size.

(** X3. The estimated size of a text is never negative and never above its
    length in UTF-16 code units. *)
Theorem size_between_zero_and_length (input : jsstring) :
  0 <= approximateTokenSize input <= jslength input.
Proof. apply approximateTokenSize_bounds. Qed.

(** X4. The estimated size is 0 exactly when the text holds nothing but
    whitespace (the empty text included). *)
Theorem size_zero_iff_whitespace (input : jsstring) :
  approximateTokenSize input = 0 <-> forallb CharClass.space input = true.
Proof. apply approximateTokenSize_zero. Qed.

(** X5. A text is within every limit that is at least its length in UTF-16
    code units. *)
Theorem within_limit_of_length (input : jsstring) (tokenLimit : Z) :
  jslength input <= tokenLimit -> isWithinTokenLimit input tokenLimit = true.
Proof.
  intros H. pose proof (approximateTokenSize_bounds input) as B.
  unfold isWithinTokenLimit. apply Z.leb_le. lia.
Qed.

Lemma within_limit_of_length_witness :
  jslength hello <= 39 /\ isWithinTokenLimit hello 39 = true.
Proof.
  assert (H : jslength hello <= 39) by (vm_compute; discriminate).
  split; [exact H | exact (within_limit_of_length hello 39 H)].
Defined.

(** X16. No text is within a negative limit, not even the empty text. *)
Theorem not_within_negative_limit (input : jsstring) (tokenLimit : Z) :
  tokenLimit < 0 -> isWithinTokenLimit input tokenLimit = false.
Proof.
  intros H. pose proof (approximateTokenSize_bounds input) as B.
  unfold isWithinTokenLimit. apply Z.leb_gt. lia.
Qed.

Lemma not_within_negative_limit_witness :
  -1 < 0 /\ isWithinTokenLimit [] (-1) = false.
Proof. split; [lia | apply (not_within_negative_limit [] (-1)); lia]. Defined.

(** ** The chunker at any overlap *)

Section AnyOverlap.

Variables maxTokens overlap : Z.

Lemma overlapWalk_returns chunk i cnt :
  (i <= length chunk)%nat ->
  exists i' c, overlapWalk chunk overlap i cnt = Ok (i', c)
               /\ -1 <= i' <= Z.of_nat i - 1.
Proof.
  revert cnt. induction i as [|i IH]; intros cnt Hi; simpl overlapWalk.
  - exists (-1), cnt. split; [reflexivity | lia].
  - destruct (cnt <? overlap).
    + destruct (nth_error chunk i) as [t|] eqn:E.
      * destruct (IH (cnt + count t) ltac:(lia)) as (i' & c & -> & B).
        exists i', c. split; [reflexivity | lia].
      * apply nth_error_None in E. lia.
    + exists (Z.of_nat i), cnt. split; [reflexivity | lia].
Qed.

Lemma skipn_split {A} (l : list A) k :
  (k < length l)%nat -> l = firstn k l ++ skipn k l /\ skipn k l <> [].
Proof.
  intros Hk. split; [symmetry; apply firstn_skipn|].
  intros E. apply (f_equal (@length A)) in E. rewrite length_skipn in E.
  simpl in E. lia.
Qed.

(** On a chunk that is not empty the walk returns, and the seed is a
    non-empty tail of the chunk. *)
Lemma overlapSeed_tail chunk :
  chunk <> [] ->
  exists front seed c,
    overlapSeed chunk overlap = Ok (seed, c)
    /\ chunk = front ++ seed /\ seed <> [].
Proof.
  intros Hne.
  assert (Hlen : (1 <= length chunk)%nat)
    by (destruct chunk; [congruence | simpl; lia]).
  unfold overlapSeed.
  destruct (Z.of_nat (length chunk) - 1 <? 0) eqn:E; [apply Z.ltb_lt in E; lia|].
  destruct (overlapWalk_returns chunk (Z.to_nat (Z.of_nat (length chunk) - 1)) 0
              ltac:(lia)) as (i' & c & -> & B).
  simpl. unfold slice.
  set (k := Z.to_nat _).
  assert (Hk : (k < length chunk)%nat).
  { subst k. destruct (i' <? 0) eqn:Ei;
      [apply Z.ltb_lt in Ei | apply Z.ltb_ge in Ei]; lia. }
  destruct (skipn_split chunk k Hk) as [Hsplit Hseed].
  exists (firstn k chunk), (skipn k chunk), c. auto.
Qed.

(** One iteration on a running chunk that is not empty: the pair is
    appended, or the chunk is closed and the pair follows a tail of it (a
    non-empty tail when the overlap is positive). *)
Lemma step_running chunks chunk cnt tok :
  chunk <> [] ->
  (exists cnt', step maxTokens overlap (chunks, chunk, cnt) tok
                = Ok (chunks, chunk ++ [tok], cnt'))
  \/ (exists front seed cnt',
        step maxTokens overlap (chunks, chunk, cnt) tok
        = Ok (chunks ++ [chunk], seed ++ [tok], cnt')
        /\ chunk = front ++ seed /\ (0 < overlap -> seed <> [])).
Proof.
  intros Hne. unfold step, closeChunk.
  destruct (maxTokens <? cnt + count tok).
  - right. destruct (0 <? overlap) eqn:Eo.
    + destruct (overlapSeed_tail chunk Hne) as (front & seed & c & -> & Hsplit & Hseed).
      simpl. exists front, seed, (c + count tok). auto.
    + simpl. exists chunk, [], (0 + count tok).
      rewrite app_nil_r. apply Z.ltb_ge in Eo.
      split; [reflexivity|]. split; [reflexivity|]. intros Ho. lia.
  - left. simpl. eauto.
Qed.

(** The first iteration, on the empty initial chunk. *)
Lemma step_initial tok :
  step maxTokens overlap ([], [], 0) tok
  = if maxTokens <? count tok
    then (if 0 <? overlap then TypeError else Ok ([[]], [tok], count tok))
    else Ok ([], [tok], count tok).
Proof.
  unfold step, closeChunk. rewrite Z.add_0_l.
  destruct (maxTokens <? count tok); [|reflexivity].
  destruct (0 <? overlap) eqn:Eo; [|reflexivity].
  unfold overlapSeed. simpl. rewrite Eo. reflexivity.
Qed.

(** An invariant of the iterations from a running chunk that is not empty
    holds in the end, and the loop does not throw. *)
Lemma loop_running (P : state -> Prop) counts :
  (forall chunks chunk cnt tok st',
      chunk <> [] -> P (chunks, chunk, cnt) ->
      step maxTokens overlap (chunks, chunk, cnt) tok = Ok st' -> P st') ->
  forall chunks chunk cnt,
    chunk <> [] -> P (chunks, chunk, cnt) ->
    exists chunks' chunk' cnt',
      loop maxTokens overlap (chunks, chunk, cnt) counts = Ok (chunks', chunk', cnt')
      /\ chunk' <> [] /\ P (chunks', chunk', cnt').
Proof.
  intros Hstep. induction counts as [|tok counts IH]; intros chunks chunk cnt Hne HP.
  - exists chunks, chunk, cnt. auto.
  - simpl loop.
    destruct (step_running chunks chunk cnt tok Hne)
      as [(cnt' & E) | (front & seed & cnt' & E & _)];
      pose proof (Hstep _ _ _ _ _ Hne HP E) as HP'; rewrite E; simpl;
      apply IH; try assumption; apply not_eq_sym, app_cons_not_nil.
Qed.

(** The call throws exactly when the overlap is positive and the first pair
    is above the budget. *)
Lemma chunkPairs_throws counts :
  chunkPairs counts maxTokens overlap = TypeError
  <-> 0 < overlap /\ first_pair_exceeds counts maxTokens.
Proof.
  split.
  - destruct counts as [|tok counts]; [discriminate|].
    unfold chunkPairs. simpl loop. rewrite step_initial.
    destruct (maxTokens <? count tok) eqn:Em.
    + destruct (0 <? overlap) eqn:Eo.
      * intros _. apply Z.ltb_lt in Em, Eo.
        split; [assumption | exists tok, counts; auto].
      * simpl.
        destruct (loop_running (fun _ => True) counts ltac:(auto)
                    [[]] [tok] (count tok) ltac:(discriminate) I)
          as (c1 & c2 & c3 & -> & _). discriminate.
    + simpl.
      destruct (loop_running (fun _ => True) counts ltac:(auto)
                  [] [tok] (count tok) ltac:(discriminate) I)
        as (c1 & c2 & c3 & -> & _). discriminate.
  - intros (Ho & tok & rest & -> & Hm).
    exact (oversized_first_pair_throws maxTokens overlap Ho tok rest Hm).
Qed.

End AnyOverlap.

Section Outcome.

Variables maxTokens overlap : Z.

(** A call that returns on a non-empty sequence of pairs: after the first
    iteration the closed chunks are [chunks1] (one empty chunk when the first
    pair is above the budget, none otherwise), and an invariant of the later
    iterations holds for the closed chunks and the last, non-empty chunk. *)
Lemma chunkPairs_returns tok rest chunks :
  chunkPairs (tok :: rest) maxTokens overlap = Ok chunks ->
  exists chunks1,
    ((chunks1 = [[]] /\ maxTokens < count tok /\ overlap <= 0)
     \/ (chunks1 = [] /\ count tok <= maxTokens))
    /\ forall P : state -> Prop,
        (forall chunks chunk cnt tok st',
            chunk <> [] -> P (chunks, chunk, cnt) ->
            step maxTokens overlap (chunks, chunk, cnt) tok = Ok st' -> P st') ->
        P (chunks1, [tok], count tok) ->
        exists chunks' chunk' cnt',
          chunks = chunks' ++ [chunk'] /\ chunk' <> []
          /\ P (chunks', chunk', cnt').
Proof.
  unfold chunkPairs. simpl loop. rewrite (step_initial maxTokens overlap).
  assert (Hfin : forall chunks1 : list (list TokenCount),
    bind (loop maxTokens overlap (chunks1, [tok], count tok) rest)
         (fun st => Ok (finish st)) = Ok chunks ->
    forall P : state -> Prop,
        (forall chunks chunk cnt tok st',
            chunk <> [] -> P (chunks, chunk, cnt) ->
            step maxTokens overlap (chunks, chunk, cnt) tok = Ok st' -> P st') ->
        P (chunks1, [tok], count tok) ->
        exists chunks' chunk' cnt',
          chunks = chunks' ++ [chunk'] /\ chunk' <> []
          /\ P (chunks', chunk', cnt')).
  { intros chunks1 E P Hstep HP.
    destruct (loop_running maxTokens overlap P rest Hstep
                chunks1 [tok] (count tok) ltac:(discriminate) HP)
      as (chunks' & chunk' & cnt' & El & Hne & HP').
    rewrite El in E. simpl in E. injection E as <-.
    exists chunks', chunk', cnt'. repeat split; try assumption.
    destruct chunk'; [congruence | reflexivity]. }
  destruct (maxTokens <? count tok) eqn:Em.
  - destruct (0 <? overlap) eqn:Eo; [discriminate|].
    simpl. intros E. exists [[]]. apply Z.ltb_lt in Em. apply Z.ltb_ge in Eo.
    split; [left; auto | exact (Hfin _ E)].
  - simpl. intros E. exists []. apply Z.ltb_ge in Em.
    split; [right; auto | exact (Hfin _ E)].
Qed.

(** Nothing is emitted exactly for no pairs. *)
Lemma chunkPairs_nil counts :
  chunkPairs counts maxTokens overlap = Ok [] <-> counts = [].
Proof.
  split.
  - destruct counts as [|tok rest]; [reflexivity|]. intros E.
    destruct (chunkPairs_returns _ _ _ E) as (chunks1 & _ & H).
    destruct (H (fun _ => True) ltac:(auto) I) as (c1 & c2 & c3 & Hc & _).
    destruct c1; discriminate.
  - intros ->. reflexivity.
Qed.

(** An empty chunk is emitted exactly without overlap when the first pair
    is above the budget. *)
Lemma chunkPairs_empty_chunk counts chunks :
  chunkPairs counts maxTokens overlap = Ok chunks ->
  (In [] chunks <-> overlap <= 0 /\ first_pair_exceeds counts maxTokens).
Proof.
  destruct counts as [|tok rest].
  - intros [= <-]. split; [contradiction|].
    intros (_ & t & r & E & _). discriminate.
  - intros E. destruct (chunkPairs_returns _ _ _ E) as (chunks1 & Hfirst & H).
    destruct (H (fun st => exists more,
                    fst (fst st) = chunks1 ++ more
                    /\ Forall (fun c : list TokenCount => c <> []) more))
      as (chunks' & chunk' & cnt' & -> & Hne & more & Hm & Hall).
    + intros cs ch cnt t st' Hc (more & Hm & Hall) Es. simpl in Hm.
      destruct (step_running maxTokens overlap cs ch cnt t Hc)
        as [(cnt' & E') | (front & seed & cnt' & E' & _)];
        rewrite E' in Es; injection Es as <-; simpl.
      * exists more. auto.
      * exists (more ++ [ch]). rewrite Hm, <- app_assoc.
        split; [reflexivity|]. apply Forall_app. auto.
    + exists []. rewrite app_nil_r. auto.
    + simpl in Hm. subst chunks'. rewrite Forall_forall in Hall.
      split.
      * intros Hin. rewrite !in_app_iff in Hin.
        destruct Hfirst as [(-> & Hgt & Ho) | (-> & Hle)].
        -- split; [assumption | exists tok, rest; auto].
        -- destruct Hin as [[[] | Hin] | [Hin | []]].
           ++ destruct (Hall _ Hin). reflexivity.
           ++ congruence.
      * intros (Ho & t & r & [= <- <-] & Hgt).
        destruct Hfirst as [(-> & _) | (_ & Hle)]; [|lia].
        simpl. auto.
Qed.

End Outcome.

Section Contents.

Variables maxTokens overlap : Z.

Lemma In_slice {A} (a : list A) (start : Z) x : In x (slice a start) -> In x a.
Proof.
  intros Hin.
  assert (H : Forall (fun y => In y a) (slice a start))
    by (apply Forall_slice, Forall_forall; auto).
  rewrite Forall_forall in H. exact (H x Hin).
Qed.

Lemma overlapSeed_In chunk seed c x :
  overlapSeed chunk overlap = Ok (seed, c) -> In x seed -> In x chunk.
Proof.
  unfold overlapSeed.
  destruct (Z.of_nat (length chunk) - 1 <? 0).
  - destruct (0 <? overlap); [discriminate|]. simpl. intros [= <- _]. apply In_slice.
  - destruct (overlapWalk _ _ _ _) as [w|]; [|discriminate].
    simpl. intros [= <- _]. apply In_slice.
Qed.

(** An iteration adds the pair and nothing else to the pairs held. *)
Lemma step_pairs st tok st' :
  step maxTokens overlap st tok = Ok st' ->
  forall tc, In tc (pairs st') <-> In tc (pairs st) \/ tc = tok.
Proof.
  destruct st as [[chunks chunk] cnt]. unfold step, closeChunk.
  destruct (maxTokens <? cnt + count tok).
  - destruct (0 <? overlap).
    + destruct (overlapSeed chunk overlap) as [[seed c]|] eqn:Es; [|discriminate].
      simpl. intros [= <-] tc. unfold pairs.
      rewrite concat_app. simpl. rewrite app_nil_r, !in_app_iff. simpl.
      pose proof (overlapSeed_In _ _ _ tc Es). intuition (subst; auto).
    + simpl. intros [= <-] tc. unfold pairs.
      rewrite concat_app. simpl. rewrite app_nil_r, !in_app_iff. simpl.
      intuition (subst; auto).
  - simpl. intros [= <-] tc. unfold pairs. rewrite !in_app_iff. simpl.
    intuition (subst; auto).
Qed.

Lemma loop_pairs counts st st' :
  loop maxTokens overlap st counts = Ok st' ->
  forall tc, In tc (pairs st') <-> In tc (pairs st) \/ In tc counts.
Proof.
  revert st. induction counts as [|tok counts IH]; intros st; simpl.
  - intros [= <-] tc. tauto.
  - destruct (step maxTokens overlap st tok) as [st1|] eqn:E; [|discriminate].
    simpl. intros El tc. rewrite (IH _ El tc), (step_pairs _ _ _ E tc).
    intuition (subst; auto).
Qed.

(** The emitted chunks hold the pairs of the input and no others. *)
Lemma chunkPairs_pairs counts chunks :
  chunkPairs counts maxTokens overlap = Ok chunks ->
  forall tc, In tc (concat chunks) <-> In tc counts.
Proof.
  unfold chunkPairs.
  destruct (loop maxTokens overlap ([], [], 0) counts) as [st|] eqn:E; [|discriminate].
  simpl. intros [= <-] tc. rewrite concat_finish, (loop_pairs _ _ _ E tc).
  simpl. tauto.
Qed.

(** Pairs that fit the budget together are never separated. *)
Lemma loop_fits counts chunks chunk cnt :
  Forall nonneg counts ->
  cnt + total counts <= maxTokens ->
  loop maxTokens overlap (chunks, chunk, cnt) counts
  = Ok (chunks, chunk ++ counts, cnt + total counts).
Proof.
  intros Hnn. revert chunk cnt.
  induction Hnn as [|tok counts Htok Hnn IH]; intros chunk cnt Hfit; simpl.
  - rewrite app_nil_r, Z.add_0_r. reflexivity.
  - pose proof (total_nonneg _ Hnn) as Hrest. unfold nonneg in Htok.
    simpl in Hfit. unfold step, closeChunk.
    destruct (maxTokens <? cnt + count tok) eqn:E; [apply Z.ltb_lt in E; lia|].
    simpl. rewrite IH by lia. rewrite <- app_assoc, Z.add_assoc. reflexivity.
Qed.

Lemma chunkPairs_fits counts :
  Forall nonneg counts -> counts <> [] -> total counts <= maxTokens ->
  chunkPairs counts maxTokens overlap = Ok [counts].
Proof.
  intros Hnn Hne Hfit. unfold chunkPairs.
  rewrite loop_fits by (try assumption; lia). simpl.
  destruct counts; [congruence | reflexivity].
Qed.

Lemma snoc_eq_middle {A} (l : list A) x pre c1 c2 post :
  l ++ [x] = pre ++ c1 :: c2 :: post ->
  (post = [] /\ x = c2 /\ l = pre ++ [c1])
  \/ (exists post', post = post' ++ [x] /\ l = pre ++ c1 :: c2 :: post').
Proof.
  intros E. destruct post as [|y post] using rev_ind.
  - left. change (pre ++ [c1; c2]) with (pre ++ [c1] ++ [c2]) in E.
    rewrite app_assoc in E. apply app_inj_tail in E. destruct E as [-> ->]. auto.
  - right. exists post.
    change (pre ++ c1 :: c2 :: post ++ [y])
      with (pre ++ (c1 :: c2 :: post) ++ [y]) in E.
    rewrite app_assoc in E. apply app_inj_tail in E. destruct E as [-> ->]. auto.
Qed.

(** With a positive overlap every chunk after the first starts with a
    non-empty tail of the chunk before it. *)
Lemma chunkPairs_seeded counts chunks :
  0 < overlap ->
  chunkPairs counts maxTokens overlap = Ok chunks ->
  forall pre c1 c2 post, chunks = pre ++ c1 :: c2 :: post -> seeded_by c1 c2.
Proof.
  intros Ho. destruct counts as [|tok rest].
  - intros [= <-] pre c1 c2 post E. destruct pre; discriminate.
  - intros E. destruct (chunkPairs_returns _ _ _ _ _ E) as (chunks1 & Hfirst & H).
    destruct Hfirst as [(_ & _ & Hle) | (-> & _)]; [lia|].
    destruct (H (fun st => forall pre c1 c2 post,
                   fst (fst st) ++ [snd (fst st)] = pre ++ c1 :: c2 :: post ->
                   seeded_by c1 c2))
      as (chunks' & chunk' & cnt' & -> & _ & Hchain).
    + intros cs ch cnt t st' Hc Hinv Es. simpl in Hinv.
      destruct (step_running maxTokens overlap cs ch cnt t Hc)
        as [(cnt' & E') | (front & seed & cnt' & E' & Hsplit & Hseed)];
        rewrite E' in Es; injection Es as <-; simpl;
        intros pre c1 c2 post Hmid;
        apply snoc_eq_middle in Hmid;
        destruct Hmid as [(-> & <- & Hl) | (post' & -> & Hl)].
      * destruct (Hinv pre c1 ch [] ltac:(rewrite Hl, <- app_assoc; reflexivity))
          as (f & s & fr & E1 & E2 & Hs & Hfr).
        exists f, s, (fr ++ [t]). rewrite E2, <- app_assoc.
        repeat split; auto. apply not_eq_sym, app_cons_not_nil.
      * apply (Hinv pre c1 c2 (post' ++ [ch])). rewrite Hl, <- app_assoc. reflexivity.
      * apply app_inj_tail in Hl. destruct Hl as [_ <-].
        exists front, seed, [t]. repeat split; auto. discriminate.
      * apply (Hinv pre c1 c2 post'). exact Hl.
    + simpl. intros pre c1 c2 post Hmid. destruct pre as [|? [|? ?]]; discriminate.
    + simpl in Hchain. intros pre c1 c2 post Hmid. exact (Hchain _ _ _ _ Hmid).
Qed.

End Contents.

Section Strings.

Lemma approximateTokenChunks_nil input : approximateTokenChunks input = [] <-> input = [].
Proof.
  split.
  - intros E. rewrite <- (tokens_concat input), E. reflexivity.
  - intros ->. reflexivity.
Qed.

Lemma chunkByMaxTokens_Ok input maxTokens overlap out :
  chunkByMaxTokens input maxTokens overlap = Ok out <->
  exists chunks,
    chunkPairs (approximateTokenChunks input) maxTokens overlap = Ok chunks
    /\ out = map joinTokens chunks.
Proof.
  unfold chunkByMaxTokens.
  destruct (chunkPairs _ maxTokens overlap) as [chunks|]; simpl; split.
  - intros [= <-]. eauto.
  - intros (c & [= <-] & ->). reflexivity.
  - discriminate.
  - intros (c & E & _). discriminate.
Qed.

Lemma chunkByMaxTokens_TypeError input maxTokens overlap :
  chunkByMaxTokens input maxTokens overlap = TypeError <->
  chunkPairs (approximateTokenChunks input) maxTokens overlap = TypeError.
Proof.
  unfold chunkByMaxTokens.
  destruct (chunkPairs _ maxTokens overlap); simpl; split;
    (discriminate || reflexivity).
Qed.

Lemma joinTokens_app a b : joinTokens (a ++ b) = joinTokens a ++ joinTokens b.
Proof. unfold joinTokens. rewrite map_app, concat_app. reflexivity. Qed.

(** Pairs with non-empty substrings join to the empty string only when
    there is no pair. *)
Lemma joinTokens_nil chunk :
  Forall (fun tc => token tc <> []) chunk -> joinTokens chunk = [] -> chunk = [].
Proof.
  destruct 1 as [|tc chunk Htc _]; [reflexivity|].
  unfold joinTokens. simpl. intros E. apply app_eq_nil in E. tauto.
Qed.

Lemma approximateTokenChunks_tokens input :
  Forall (fun tc => token tc <> []) (approximateTokenChunks input).
Proof.
  rewrite Forall_forall. intros tc Hin. apply (in_map token) in Hin.
  rewrite tokens_of_chunks in Hin. exact (roughTokens_nonempty _ _ Hin).
Qed.

(** The pairs of an emitted chunk have non-empty substrings. *)
Lemma emitted_tokens input maxTokens overlap chunks chunk :
  chunkPairs (approximateTokenChunks input) maxTokens overlap = Ok chunks ->
  In chunk chunks -> Forall (fun tc => token tc <> []) chunk.
Proof.
  intros E Hin. rewrite Forall_forall. intros tc Htc.
  pose proof (approximateTokenChunks_tokens input) as H.
  rewrite Forall_forall in H. apply H.
  apply (chunkPairs_pairs _ _ _ _ E). apply in_concat. eauto.
Qed.

End Strings.

(** X6. [chunkByMaxTokens] throws exactly when the overlap is positive and
    the first pair of the input has a count above [maxTokens]; in every other
    case it returns. *)
Theorem chunkByMaxTokens_throws_iff (input : jsstring) (maxTokens overlap : Z) :
  chunkByMaxTokens input maxTokens overlap = TypeError
  <-> 0 < overlap /\ first_pair_exceeds (approximateTokenChunks input) maxTokens.
Proof. rewrite chunkByMaxTokens_TypeError. apply chunkPairs_throws. Qed.

(** X7. A non-empty text that is within the limit is returned whole, as
    one chunk, whatever the overlap. *)
Theorem text_within_limit_is_one_chunk (input : jsstring) (maxTokens overlap : Z) :
  input <> [] ->
  isWithinTokenLimit input maxTokens = true ->
  chunkByMaxTokens input maxTokens overlap = Ok [input].
Proof.
  intros Hne Hfit. unfold isWithinTokenLimit in Hfit. apply Z.leb_le in Hfit.
  rewrite approximateTokenSize_total in Hfit.
  unfold chunkByMaxTokens. rewrite chunkPairs_fits.
  - simpl. unfold joinTokens. rewrite tokens_concat. reflexivity.
  - apply approximateTokenChunks_nonneg.
  - intros E. apply approximateTokenChunks_nil in E. contradiction.
  - assumption.
Qed.

Lemma text_within_limit_is_one_chunk_witness :
  hello <> [] /\ isWithinTokenLimit hello 11 = true
  /\ chunkByMaxTokens hello 11 4 = Ok [hello].
Proof.
  assert (H1 : hello <> []) by discriminate.
  assert (H2 : isWithinTokenLimit hello 11 = true) by reflexivity.
  split; [exact H1|]. split; [exact H2|].
  exact (text_within_limit_is_one_chunk hello 11 4 H1 H2).
Defined.

(** X8. [chunkByMaxTokens] returns no chunk at all exactly for the empty
    text. *)
Theorem no_chunk_iff_empty_text (input : jsstring) (maxTokens overlap : Z) :
  chunkByMaxTokens input maxTokens overlap = Ok [] <-> input = [].
Proof.
  rewrite chunkByMaxTokens_Ok. split.
  - intros (chunks & E & Hout). symmetry in Hout. apply map_eq_nil in Hout.
    subst chunks. apply chunkPairs_nil in E.
    apply approximateTokenChunks_nil. assumption.
  - intros ->. exists []. split; reflexivity.
Qed.

(** X10. An empty string is among the returned chunks exactly when the
    overlap is not positive and the first pair has a count above
    [maxTokens]. *)
Theorem empty_chunk_iff
  (input : jsstring) (maxTokens overlap : Z) (out : list jsstring) :
  chunkByMaxTokens input maxTokens overlap = Ok out ->
  (In [] out <-> overlap <= 0
                 /\ first_pair_exceeds (approximateTokenChunks input) maxTokens).
Proof.
  intros E. apply chunkByMaxTokens_Ok in E. destruct E as (chunks & E & ->).
  rewrite <- (chunkPairs_empty_chunk _ _ _ _ E). rewrite in_map_iff. split.
  - intros (chunk & Hj & Hin).
    rewrite (joinTokens_nil chunk (emitted_tokens _ _ _ _ _ E Hin) Hj) in Hin.
    exact Hin.
  - intros Hin. exists []. auto.
Qed.

Lemma empty_chunk_iff_witness :
  chunkByMaxTokens (js "sentence") 1 0 = Ok [ []; js "sentence" ]
  /\ (In [] [ []; js "sentence" ]
      <-> 0 <= 0 /\ first_pair_exceeds (approximateTokenChunks (js "sentence")) 1).
Proof.
  assert (E : chunkByMaxTokens (js "sentence") 1 0 = Ok [ []; js "sentence" ])
    by (vm_compute; reflexivity).
  split; [exact E | exact (empty_chunk_iff (js "sentence") 1 0 _ E)].
Defined.

(** X11. With a positive overlap, every returned chunk after the first
    starts with a non-empty end of the chunk before it and goes on with new
    text. *)
Theorem chunks_overlap
  (input : jsstring) (maxTokens overlap : Z) (out : list jsstring) :
  0 < overlap ->
  chunkByMaxTokens input maxTokens overlap = Ok out ->
  forall before s1 s2 after,
    out = before ++ s1 :: s2 :: after ->
    exists front shared fresh,
      s1 = front ++ shared /\ s2 = shared ++ fresh
      /\ shared <> [] /\ fresh <> [].
Proof.
  intros Ho E before s1 s2 after Hout.
  apply chunkByMaxTokens_Ok in E. destruct E as (chunks & E & ->).
  apply map_eq_app in Hout. destruct Hout as (pre & tl1 & -> & _ & Htl).
  apply map_eq_cons in Htl. destruct Htl as (c1 & tl2 & -> & <- & Htl).
  apply map_eq_cons in Htl. destruct Htl as (c2 & post & -> & <- & _).
  destruct (chunkPairs_seeded _ _ _ _ Ho E pre c1 c2 post eq_refl)
    as (front & seed & fresh & -> & -> & Hseed & Hfresh).
  assert (H1 : Forall (fun tc => token tc <> []) (front ++ seed)).
  { apply (emitted_tokens _ _ _ _ _ E). rewrite in_app_iff. right. left. reflexivity. }
  assert (H2 : Forall (fun tc => token tc <> []) (seed ++ fresh)).
  { apply (emitted_tokens _ _ _ _ _ E). rewrite in_app_iff. right. right. left. reflexivity. }
  apply Forall_app in H1, H2.
  exists (joinTokens front), (joinTokens seed), (joinTokens fresh).
  rewrite !joinTokens_app. repeat split.
  - intros Hnil. apply Hseed. apply joinTokens_nil; tauto.
  - intros Hnil. apply Hfresh. apply joinTokens_nil; tauto.
Qed.

Lemma chunks_overlap_witness :
  0 < 1
  /\ chunkByMaxTokens hello 3 1
     = Ok ([js "Hello, world"; js "Hello, world! This "] ++
           js " This is a " :: js " a short " :: [js " short sentence"; js " short sentence."])
  /\ exists front shared fresh,
      js " This is a " = front ++ shared /\ js " a short " = shared ++ fresh
      /\ shared <> [] /\ fresh <> [].
Proof.
  assert (E : chunkByMaxTokens hello 3 1
     = Ok ([js "Hello, world"; js "Hello, world! This "] ++
           js " This is a " :: js " a short " :: [js " short sentence"; js " short sentence."]))
    by (vm_compute; reflexivity).
  split; [lia|]. split; [exact E|].
  exact (chunks_overlap hello 3 1 _ ltac:(lia) E _ _ _ _ eq_refl).
Defined.

(** ** Segmenting a part of the text again *)

Section Resegment.

Lemma split_loop_cons p c s :
  split_loop p (c :: s)
  = match match_splitter (c :: s) with
    | Some (cap, rest) => p :: cap :: split_loop [] rest
    | None => split_loop (p ++ [c]) s
    end.
Proof.
  simp split_loop. unfold inspect.
  generalize (@eq_refl _ (match_splitter (c :: s))).
  generalize (match_splitter (c :: s)) at 2 4 5.
  intros [[cap rest]|] e; simp split_loop; reflexivity.
Qed.

Lemma span_stop cls s run rest :
  span cls s = (run, rest) ->
  match rest with d :: _ => cls d = false | [] => True end.
Proof.
  revert run rest. induction s as [|c s IH]; intros run rest; simpl.
  - intros [= <- <-]. exact I.
  - destruct (cls c) eqn:Hc.
    + destruct (span cls s) as [r1 r2]. intros [= <- <-]. exact (IH r1 r2 eq_refl).
    + intros [= <- <-]. exact Hc.
Qed.

Lemma span_prefix cls run s :
  forallb cls run = true ->
  match s with d :: _ => cls d = false | [] => True end ->
  span cls (run ++ s) = (run, s).
Proof.
  intros Hrun Hs. induction run as [|c run IH]; simpl.
  - destruct s as [|d s]; [reflexivity|]. simpl. rewrite Hs. reflexivity.
  - simpl in Hrun. apply andb_true_iff in Hrun. destruct Hrun as [Hc Hrun].
    rewrite Hc, (IH Hrun). reflexivity.
Qed.

Lemma kind_of_Whitespace c : kind_of c = Whitespace <-> CharClass.space c = true.
Proof.
  unfold kind_of. destruct (CharClass.space c); [tauto|].
  destruct (CharClass.punctuation c); split; discriminate.
Qed.

Lemma kind_of_Punctuation c : kind_of c = Punctuation <-> CharClass.punctuation c = true.
Proof.
  unfold kind_of. destruct (CharClass.space c) eqn:Hs.
  - rewrite (space_not_punctuation c Hs). split; discriminate.
  - destruct (CharClass.punctuation c); split; (discriminate || reflexivity).
Qed.

Lemma kind_of_Text c : kind_of c = Text <-> plain c = true.
Proof.
  unfold kind_of, plain. destruct (CharClass.space c); [split; discriminate|].
  destruct (CharClass.punctuation c); split; (discriminate || reflexivity).
Qed.

Lemma Forall_kind_forallb (cls : code_unit -> bool) k tok :
  (forall c, kind_of c = k <-> cls c = true) ->
  Forall (fun c => kind_of c = k) tok -> forallb cls tok = true.
Proof.
  intros Hk H. apply forallb_forall. rewrite Forall_forall in H.
  intros c Hin. apply Hk, H, Hin.
Qed.

Lemma starts_apart_cls (cls : code_unit -> bool) k s :
  (forall c, kind_of c = k <-> cls c = true) ->
  starts_apart k s ->
  match s with d :: _ => cls d = false | [] => True end.
Proof.
  intros Hk. destruct s as [|d s]; simpl; [auto|].
  intros Hd. destruct (cls d) eqn:E; [|reflexivity].
  destruct Hd. apply Hk. exact E.
Qed.

Lemma split_loop_plain_prefix p run s :
  forallb plain run = true -> split_loop p (run ++ s) = split_loop (p ++ run) s.
Proof.
  revert p. induction run as [|c run IH]; intros p Hrun; simpl.
  - rewrite app_nil_r. reflexivity.
  - simpl in Hrun. apply andb_true_iff in Hrun. destruct Hrun as [Hc Hrun].
    rewrite split_loop_cons, (match_splitter_plain c (run ++ s) Hc).
    rewrite (IH _ Hrun), <- app_assoc. reflexivity.
Qed.

Lemma Boolean_nonempty tok : tok <> [] -> Boolean tok = true.
Proof. destruct tok; [congruence | reflexivity]. Qed.

(** A delimiter run at the head of a text, followed by another kind, is the
    first substring. *)
Lemma roughTokens_delimiter_head (cls : code_unit -> bool) run s :
  run <> [] ->
  forallb cls run = true ->
  match s with d :: _ => cls d = false | [] => True end ->
  (forall tl, match_splitter (run ++ tl) = Some (span cls (run ++ tl))) ->
  roughTokens (run ++ s) = run :: roughTokens s.
Proof.
  intros Hne Hrun Hs Hmatch. unfold roughTokens, split.
  destruct run as [|c run]; [congruence|].
  change ((c :: run) ++ s) with (c :: (run ++ s)).
  rewrite split_loop_cons.
  change (c :: (run ++ s)) with ((c :: run) ++ s).
  rewrite Hmatch, (span_prefix cls (c :: run) s Hrun Hs).
  reflexivity.
Qed.

Lemma roughTokens_head k run s :
  run <> [] ->
  Forall (fun c => kind_of c = k) run ->
  starts_apart k s ->
  roughTokens (run ++ s) = run :: roughTokens s.
Proof.
  intros Hne Hrun Hs. destruct k.
  - apply (roughTokens_delimiter_head CharClass.space); try assumption.
    + exact (Forall_kind_forallb _ _ _ kind_of_Whitespace Hrun).
    + exact (starts_apart_cls _ _ _ kind_of_Whitespace Hs).
    + intros tl. destruct run as [|c run]; [congruence|].
      apply Forall_inv in Hrun. apply kind_of_Whitespace in Hrun.
      simpl app. unfold match_splitter. rewrite Hrun. reflexivity.
  - apply (roughTokens_delimiter_head CharClass.punctuation); try assumption.
    + exact (Forall_kind_forallb _ _ _ kind_of_Punctuation Hrun).
    + exact (starts_apart_cls _ _ _ kind_of_Punctuation Hs).
    + intros tl. destruct run as [|c run]; [congruence|].
      apply Forall_inv in Hrun. apply kind_of_Punctuation in Hrun.
      simpl app. unfold match_splitter.
      destruct (CharClass.space c) eqn:Hsp.
      * rewrite (space_not_punctuation c Hsp) in Hrun. discriminate.
      * rewrite Hrun. reflexivity.
  - pose proof (Forall_kind_forallb _ _ _ kind_of_Text Hrun) as Hplain.
    unfold roughTokens, split.
    rewrite (split_loop_plain_prefix [] run s Hplain). simpl app.
    destruct s as [|d s].
    + simp split_loop. simpl. rewrite (Boolean_nonempty run Hne). reflexivity.
    + rewrite !split_loop_cons.
      destruct (match_splitter (d :: s)) as [[cap rest]|] eqn:Em.
      * simpl. rewrite (Boolean_nonempty run Hne). reflexivity.
      * apply match_splitter_none, kind_of_Text in Em. simpl in Hs. contradiction.
Qed.

Lemma runs_resegment toks : maximal_runs toks -> roughTokens (concat toks) = toks.
Proof.
  induction toks as [|tok rest IH]; simpl.
  - intros _. reflexivity.
  - intros (Hne & (k & Hk & Hs) & Hrest).
    rewrite (roughTokens_head k tok (concat rest) Hne Hk Hs), (IH Hrest).
    reflexivity.
Qed.

Lemma kind_eqb_eq k1 k2 : kind_eqb k1 k2 = true <-> k1 = k2.
Proof. destruct k1, k2; simpl; split; (discriminate || reflexivity). Qed.

(** The segmenter cuts the text into its maximal runs. *)
Lemma roughTokens_maximal_runs input : maximal_runs (roughTokens input).
Proof.
  enough (H : forall n input, (length input <= n)%nat -> maximal_runs (roughTokens input))
    by exact (H (length input) input (le_n _)).
  clear input. induction n as [|n IH]; intros [|c s] Hlen; simpl in Hlen;
    try exact I; try lia.
  set (k := kind_of c).
  set (cls := fun d => kind_eqb (kind_of d) k).
  destruct (span cls (c :: s)) as [run rest] eqn:Es.
  assert (Hk : forall d, kind_of d = k <-> cls d = true)
    by (intros d; unfold cls; symmetry; apply kind_eqb_eq).
  assert (Hc : cls c = true) by (apply Hk; reflexivity).
  pose proof (span_app _ _ _ _ Es) as Happ.
  pose proof (span_run _ _ _ _ Es) as Hrun.
  pose proof (span_stop _ _ _ _ Es) as Hstop.
  assert (Hne : run <> []).
  { simpl in Es. rewrite Hc in Es. destruct (span cls s). injection Es as <- _.
    discriminate. }
  assert (Hall : Forall (fun d => kind_of d = k) run).
  { apply Forall_forall. intros d Hd. apply Hk.
    rewrite forallb_forall in Hrun. exact (Hrun d Hd). }
  assert (Hapart : starts_apart k rest).
  { destruct rest as [|d rest]; simpl; [exact I|].
    intros Hd. apply Hk in Hd. congruence. }
  rewrite <- Happ, (roughTokens_head k run rest Hne Hall Hapart).
  simpl. split; [exact Hne|]. split.
  - exists k. rewrite roughTokens_concat. auto.
  - apply IH. apply (f_equal (@length code_unit)) in Happ.
    rewrite length_app in Happ. simpl in Happ.
    destruct run; [congruence | simpl in Happ; lia].
Qed.

Lemma starts_apart_app k a b : starts_apart k (a ++ b) -> starts_apart k a.
Proof. destruct a; simpl; auto. Qed.

Lemma maximal_runs_app_r before toks :
  maximal_runs (before ++ toks) -> maximal_runs toks.
Proof.
  induction before as [|t before IH]; simpl; [auto|].
  intros (_ & _ & H). exact (IH H).
Qed.

Lemma maximal_runs_app_l toks after :
  maximal_runs (toks ++ after) -> maximal_runs toks.
Proof.
  induction toks as [|t toks IH]; simpl; [auto|].
  intros (Hne & (k & Hk & Hs) & H). split; [exact Hne|]. split; [|exact (IH H)].
  exists k. split; [exact Hk|].
  rewrite concat_app in Hs. exact (starts_apart_app _ _ _ Hs).
Qed.

(** A contiguous part of the substrings of a text, joined, is segmented
    into these substrings again. *)
Lemma roughTokens_piece input toks :
  piece_of (roughTokens input) toks -> roughTokens (concat toks) = toks.
Proof.
  intros (before & after & E). apply runs_resegment.
  pose proof (roughTokens_maximal_runs input) as H. rewrite E in H.
  exact (maximal_runs_app_l _ _ (maximal_runs_app_r _ _ H)).
Qed.

Lemma approximateTokenChunks_piece input chunk :
  piece_of (approximateTokenChunks input) chunk ->
  approximateTokenChunks (joinTokens chunk) = chunk.
Proof.
  intros (before & after & E).
  assert (Hp : piece_of (roughTokens input) (map token chunk)).
  { exists (map token before), (map token after).
    rewrite <- tokens_of_chunks, E, !map_app. reflexivity. }
  unfold approximateTokenChunks at 1, joinTokens.
  rewrite (roughTokens_piece input _ Hp), map_map.
  assert (Hin : forall tc, In tc chunk -> In tc (approximateTokenChunks input))
    by (intros tc Htc; rewrite E, !in_app_iff; auto).
  clear E Hp. induction chunk as [|tc chunk IH]; simpl; [reflexivity|].
  rewrite IH by (intros t Ht; apply Hin; right; exact Ht). f_equal.
  specialize (Hin tc (or_introl eq_refl)).
  unfold approximateTokenChunks in Hin. rewrite in_map_iff in Hin.
  destruct Hin as (tok & <- & _). reflexivity.
Qed.

End Resegment.

(** ** The returned chunks as parts of the text *)

Section Pieces.

Variables maxTokens overlap : Z.

Lemma slice_tail {A} (a : list A) (start : Z) : exists front, a = front ++ slice a start.
Proof. unfold slice. eexists. symmetry. apply firstn_skipn. Qed.

Lemma overlapSeed_is_tail chunk seed c :
  overlapSeed chunk overlap = Ok (seed, c) -> exists front, chunk = front ++ seed.
Proof.
  unfold overlapSeed.
  destruct (Z.of_nat (length chunk) - 1 <? 0).
  - destruct (0 <? overlap); [discriminate|]. simpl. intros [= <- _]. apply slice_tail.
  - destruct (overlapWalk _ _ _ _) as [w|]; [|discriminate].
    simpl. intros [= <- _]. apply slice_tail.
Qed.

(** The running chunk is the end of the pairs read so far, and every closed
    chunk is a contiguous part of the pairs. *)
Lemma loop_pieces (all : list TokenCount) counts :
  forall chunks chunk cnt chunks' chunk' cnt',
    (exists before, all = (before ++ chunk) ++ counts) ->
    Forall (piece_of all) chunks ->
    loop maxTokens overlap (chunks, chunk, cnt) counts = Ok (chunks', chunk', cnt') ->
    Forall (piece_of all) chunks' /\ exists before, all = before ++ chunk'.
Proof.
  induction counts as [|tok counts IH];
    intros chunks chunk cnt chunks' chunk' cnt' (before & Hall) Hcs; simpl.
  - intros [= <- <- <-]. rewrite app_nil_r in Hall. eauto.
  - unfold step, closeChunk.
    destruct (maxTokens <? cnt + count tok).
    + assert (Hclosed : Forall (piece_of all) (chunks ++ [chunk])).
      { apply Forall_app. split; [assumption|]. constructor; [|constructor].
        exists before, (tok :: counts). rewrite Hall, <- !app_assoc. reflexivity. }
      destruct (0 <? overlap).
      * destruct (overlapSeed chunk overlap) as [[seed c]|] eqn:Es; [|discriminate].
        simpl. destruct (overlapSeed_is_tail _ _ _ Es) as (front & Hfront).
        apply IH; [|assumption].
        exists (before ++ front). rewrite Hall, Hfront, <- !app_assoc. reflexivity.
      * simpl. apply IH; [|assumption].
        exists (before ++ chunk). rewrite Hall, <- !app_assoc. reflexivity.
    + simpl. apply IH; [|assumption].
      exists before. rewrite Hall, <- !app_assoc. reflexivity.
Qed.

Lemma chunkPairs_pieces counts chunks :
  chunkPairs counts maxTokens overlap = Ok chunks -> Forall (piece_of counts) chunks.
Proof.
  unfold chunkPairs.
  destruct (loop maxTokens overlap ([], [], 0) counts) as [[[cs ch] cnt]|] eqn:E;
    [|discriminate].
  simpl. intros [= <-].
  destruct (loop_pieces counts counts [] [] 0 cs ch cnt) as [Hcs (before & Hlast)];
    [exists []; reflexivity | constructor | exact E |].
  destruct ch as [|t ch]; [exact Hcs|].
  apply Forall_app. split; [exact Hcs|]. constructor; [|constructor].
  exists before, []. rewrite app_nil_r. exact Hlast.
Qed.

(** Estimating a returned chunk again gives the pairs it was built from. *)
Lemma chunkPairs_reestimate input chunks :
  chunkPairs (approximateTokenChunks input) maxTokens overlap = Ok chunks ->
  map approximateTokenChunks (map joinTokens chunks) = chunks.
Proof.
  intros E. pose proof (chunkPairs_pieces _ _ E) as H. clear E.
  rewrite map_map. induction H as [|chunk chunks Hp _ IH]; simpl; [reflexivity|].
  rewrite IH, (approximateTokenChunks_piece input chunk Hp). reflexivity.
Qed.

(** The running chunk is a seed followed by new pairs, each closed chunk
    was one, and the new pairs of all of them, in order, are the pairs read
    so far. *)
Lemma loop_parts counts :
  forall (parts : list (list TokenCount * list TokenCount)) seed fresh cnt
         chunks' chunk' cnt',
    loop maxTokens overlap
         (map (fun part => fst part ++ snd part) parts, seed ++ fresh, cnt) counts
    = Ok (chunks', chunk', cnt') ->
    exists parts' seed' fresh',
      chunks' = map (fun part => fst part ++ snd part) parts'
      /\ chunk' = seed' ++ fresh'
      /\ concat (map snd parts') ++ fresh'
         = (concat (map snd parts) ++ fresh) ++ counts.
Proof.
  induction counts as [|tok counts IH];
    intros parts seed fresh cnt chunks' chunk' cnt'; simpl.
  - intros [= <- <- <-]. exists parts, seed, fresh.
    rewrite app_nil_r. auto.
  - unfold step, closeChunk.
    assert (Hclose : forall seed2 cnt2,
      loop maxTokens overlap
        (map (fun part => fst part ++ snd part) parts ++ [seed ++ fresh],
         seed2 ++ [tok], cnt2) counts = Ok (chunks', chunk', cnt') ->
      exists parts' seed' fresh',
        chunks' = map (fun part => fst part ++ snd part) parts'
        /\ chunk' = seed' ++ fresh'
        /\ concat (map snd parts') ++ fresh'
           = (concat (map snd parts) ++ fresh) ++ tok :: counts).
    { intros seed2 cnt2 El.
      destruct (IH (parts ++ [(seed, fresh)]) seed2 [tok] cnt2 chunks' chunk' cnt')
        as (parts' & seed' & fresh' & H1 & H2 & H3).
      - rewrite map_app. exact El.
      - exists parts', seed', fresh'. repeat split; try assumption.
        rewrite H3, map_app, concat_app. simpl.
        rewrite app_nil_r, <- !app_assoc. reflexivity. }
    destruct (maxTokens <? cnt + count tok).
    + destruct (0 <? overlap).
      * destruct (overlapSeed (seed ++ fresh) overlap) as [[seed2 c]|]; [|discriminate].
        simpl. apply Hclose.
      * simpl. apply (Hclose []).
    + simpl. intros El.
      destruct (IH parts seed (fresh ++ [tok]) (cnt + count tok) chunks' chunk' cnt')
        as (parts' & seed' & fresh' & H1 & H2 & H3).
      * rewrite app_assoc. exact El.
      * exists parts', seed', fresh'. repeat split; try assumption.
        rewrite H3, <- !app_assoc. reflexivity.
Qed.

Lemma chunkPairs_parts counts chunks :
  chunkPairs counts maxTokens overlap = Ok chunks ->
  exists parts : list (list TokenCount * list TokenCount),
    chunks = map (fun part => fst part ++ snd part) parts
    /\ concat (map snd parts) = counts.
Proof.
  unfold chunkPairs.
  destruct (loop maxTokens overlap ([], [], 0) counts) as [[[cs ch] cnt]|] eqn:E;
    [|discriminate].
  simpl. intros [= <-].
  destruct (loop_parts counts [] [] [] 0 cs ch cnt E)
    as (parts & seed & fresh & -> & -> & H).
  simpl in H. destruct (seed ++ fresh) as [|t l] eqn:Ech.
  - apply app_eq_nil in Ech. destruct Ech as [-> ->].
    exists parts. rewrite app_nil_r in H. auto.
  - exists (parts ++ [(seed, fresh)]). rewrite !map_app, concat_app. simpl.
    rewrite app_nil_r, Ech. auto.
Qed.

End Pieces.

Lemma grand_total_concat chunks : grand_total chunks = total (concat chunks).
Proof.
  induction chunks as [|c chunks IH]; simpl; [reflexivity|].
  rewrite total_app, IH. reflexivity.
Qed.

(** X9. When the chunker returns, at any overlap, no pair is dropped and
    none is invented: every emitted chunk is a contiguous part of the pairs
    of the input, and every chunk splits into a first part and a second part
    such that the second parts, chunk after chunk, are exactly the pairs of
    the input, each once and in order. *)
Theorem chunks_cover_the_pairs
  (input : jsstring) (maxTokens overlap : Z) (chunks : list (list TokenCount)) :
  chunkPairs (approximateTokenChunks input) maxTokens overlap = Ok chunks ->
  exists parts : list (list TokenCount * list TokenCount),
    chunks = map (fun part => fst part ++ snd part) parts
    /\ concat (map snd parts) = approximateTokenChunks input
    /\ Forall (piece_of (approximateTokenChunks input)) chunks.
Proof.
  intros E. destruct (chunkPairs_parts _ _ _ _ E) as (parts & H1 & H2).
  exists parts. repeat split; try assumption.
  exact (chunkPairs_pieces _ _ _ _ E).
Qed.

Lemma chunks_cover_the_pairs_witness :
  exists chunks,
    chunkPairs (approximateTokenChunks hello) 3 1 = Ok chunks
    /\ exists parts : list (list TokenCount * list TokenCount),
         chunks = map (fun part => fst part ++ snd part) parts
         /\ concat (map snd parts) = approximateTokenChunks hello
         /\ Forall (piece_of (approximateTokenChunks hello)) chunks.
Proof.
  eexists. split; [vm_compute; reflexivity|].
  apply (chunks_cover_the_pairs hello 3 1). vm_compute. reflexivity.
Defined.

(** X12. Every returned chunk is a contiguous part of the input text. *)
Theorem chunks_are_parts_of_the_text
  (input : jsstring) (maxTokens overlap : Z) (out : list jsstring) :
  chunkByMaxTokens input maxTokens overlap = Ok out ->
  forall s, In s out -> piece_of input s.
Proof.
  intros E s Hin. apply chunkByMaxTokens_Ok in E. destruct E as (chunks & E & ->).
  apply in_map_iff in Hin. destruct Hin as (chunk & <- & Hin).
  pose proof (chunkPairs_pieces _ _ _ _ E) as H. rewrite Forall_forall in H.
  destruct (H chunk Hin) as (before & after & Hall).
  exists (joinTokens before), (joinTokens after).
  rewrite <- !joinTokens_app, <- Hall. unfold joinTokens.
  symmetry. apply tokens_concat.
Qed.

Lemma chunks_are_parts_of_the_text_witness :
  chunkByMaxTokens (js "a b sentence sentence") 2 2
  = Ok [js "a b "; js " sentence"; js "sentence sentence"]
  /\ piece_of (js "a b sentence sentence") (js " sentence").
Proof.
  assert (E : chunkByMaxTokens (js "a b sentence sentence") 2 2
              = Ok [js "a b "; js " sentence"; js "sentence sentence"])
    by (vm_compute; reflexivity).
  split; [exact E|].
  apply (chunks_are_parts_of_the_text _ 2 2 _ E). simpl. tauto.
Defined.

(** X13. The chunks built by the loop can be read back from what
    [chunkByMaxTokens] returns: estimating each returned string again gives
    the pairs of its chunk. *)
Theorem returned_chunks_reestimate
  (input : jsstring) (maxTokens overlap : Z) (out : list jsstring) :
  chunkByMaxTokens input maxTokens overlap = Ok out ->
  chunkPairs (approximateTokenChunks input) maxTokens overlap
  = Ok (map approximateTokenChunks out).
Proof.
  intros E. apply chunkByMaxTokens_Ok in E. destruct E as (chunks & E & ->).
  rewrite (chunkPairs_reestimate _ _ _ _ E). exact E.
Qed.

Lemma returned_chunks_reestimate_witness :
  chunkByMaxTokens hello 5 0
  = Ok [js "Hello, world! This "; js "is a short sentence"; js "."]
  /\ chunkPairs (approximateTokenChunks hello) 5 0
     = Ok (map approximateTokenChunks
             [js "Hello, world! This "; js "is a short sentence"; js "."]).
Proof.
  assert (E : chunkByMaxTokens hello 5 0
              = Ok [js "Hello, world! This "; js "is a short sentence"; js "."])
    by (vm_compute; reflexivity).
  split; [exact E | exact (returned_chunks_reestimate hello 5 0 _ E)].
Defined.

(** X14. Without overlap and for a positive [maxTokens], every returned
    chunk is itself within the limit, unless it is a single substring whose
    own count is above [maxTokens]. *)
Theorem returned_chunks_within_limit (input : jsstring) (maxTokens : Z) :
  0 < maxTokens ->
  exists out,
    chunkByMaxTokens input maxTokens 0 = Ok out
    /\ forall s, In s out ->
         isWithinTokenLimit s maxTokens = true
         \/ exists tc, approximateTokenChunks s = [tc] /\ maxTokens < count tc.
Proof.
  intros Hpos.
  destruct (chunkPairs_partition maxTokens (approximateTokenChunks input))
    as (chunks & E & _).
  exists (map joinTokens chunks). split.
  - unfold chunkByMaxTokens. rewrite E. reflexivity.
  - intros s Hin. apply in_map_iff in Hin. destruct Hin as (chunk & <- & Hin).
    pose proof (chunkPairs_pieces _ _ _ _ E) as Hp. rewrite Forall_forall in Hp.
    pose proof (approximateTokenChunks_piece input chunk (Hp chunk Hin)) as Hre.
    assert (Hb : Forall (within_budget maxTokens) chunks).
    { rewrite chunkPairs_no_overlap in E. injection E as <-.
      apply budget_finish, budget_fold. simpl.
      repeat split; [constructor | left; simpl; lia]. }
    rewrite Forall_forall in Hb.
    destruct (Hb chunk Hin) as [Hle | (pair & -> & Hgt)].
    + left. unfold isWithinTokenLimit. apply Z.leb_le.
      rewrite approximateTokenSize_total, Hre. exact Hle.
    + right. exists pair. split; [exact Hre | exact Hgt].
Qed.

Lemma returned_chunks_within_limit_witness :
  0 < 5 /\
  exists out,
    chunkByMaxTokens hello 5 0 = Ok out
    /\ forall s, In s out ->
         isWithinTokenLimit s 5 = true
         \/ exists tc, approximateTokenChunks s = [tc] /\ 5 < count tc.
Proof. split; [lia | apply (returned_chunks_within_limit hello 5); lia]. Defined.

(** X15. Without overlap the estimated sizes of the returned chunks add up
    to the estimated size of the text. *)
Theorem chunk_sizes_add_up (input : jsstring) (maxTokens : Z) :
  exists out,
    chunkByMaxTokens input maxTokens 0 = Ok out
    /\ fold_right Z.add 0 (map approximateTokenSize out) = approximateTokenSize input.
Proof.
  destruct (chunkPairs_partition maxTokens (approximateTokenChunks input))
    as (chunks & E & Hc).
  exists (map joinTokens chunks). split.
  - unfold chunkByMaxTokens. rewrite E. reflexivity.
  - rewrite approximateTokenSize_total, <- Hc, <- grand_total_concat.
    pose proof (chunkPairs_pieces _ _ _ _ E) as Hp. clear E Hc.
    induction Hp as [|chunk chunks Hchunk _ IH]; simpl; [reflexivity|].
    rewrite IH, approximateTokenSize_total.
    rewrite (approximateTokenChunks_piece input chunk Hchunk). reflexivity.
Qed.

(** X17. Two consecutive substrings of [approximateTokenChunks] are never of
    the same kind: a whitespace run, a punctuation run and a run free of
    both are each cut at their full length. *)
Theorem consecutive_tokens_differ
  (input : jsstring) (before after : list TokenCount) (tc1 tc2 : TokenCount) :
  approximateTokenChunks input = before ++ tc1 :: tc2 :: after ->
  forall c1 c2, In c1 (token tc1) -> In c2 (token tc2) -> kind_of c1 <> kind_of c2.
Proof.
  intros E c1 c2 H1 H2.
  pose proof (roughTokens_maximal_runs input) as H.
  rewrite <- tokens_of_chunks, E, map_app in H.
  apply maximal_runs_app_r in H. simpl in H.
  destruct H as (_ & (k1 & Hk1 & Hs) & Hne2 & (k2 & Hk2 & _) & _).
  rewrite Forall_forall in Hk1, Hk2.
  rewrite (Hk1 c1 H1), (Hk2 c2 H2).
  destruct (token tc2) as [|d tok2]; [contradiction|].
  simpl in Hs. rewrite (Hk2 d (or_introl eq_refl)) in Hs. congruence.
Qed.

Lemma consecutive_tokens_differ_witness :
  approximateTokenChunks (js "Hello, world")
  = [ {| token := js "Hello"; count := 1 |} ]
    ++ {| token := js ","; count := 1 |} :: {| token := js " "; count := 0 |}
    :: [ {| token := js "world"; count := 1 |} ]
  /\ kind_of 44 <> kind_of 32.
Proof.
  assert (E : approximateTokenChunks (js "Hello, world")
    = [ {| token := js "Hello"; count := 1 |} ]
      ++ {| token := js ","; count := 1 |} :: {| token := js " "; count := 0 |}
      :: [ {| token := js "world"; count := 1 |} ]) by (vm_compute; reflexivity).
  split; [exact E|].
  apply (consecutive_tokens_differ _ _ _ _ _ E); simpl; tauto.
Defined.

(** ** Model names and context sizes *)

Section Models.

Lemma string_eqb_eq a b : string_eqb a b = true -> a = b.
Proof. unfold string_eqb. destruct (list_eq_dec Z.eq_dec a b); [auto | discriminate]. Qed.

Lemma startsWith_app prefix s : startsWith (prefix ++ s) prefix = true.
Proof.
  induction prefix as [|c prefix IH]; simpl; [reflexivity|].
  rewrite Z.eqb_refl, IH. reflexivity.
Qed.

Lemma Map_get_In map key v : Map_get map key = Some v -> In (key, v) map.
Proof.
  induction map as [|[k w] map IH]; simpl; [discriminate|].
  destruct (string_eqb k key) eqn:E.
  - intros [= <-]. apply string_eqb_eq in E. subst. auto.
  - auto.
Qed.

(** The resolved name is one of the four families or the name itself, in
    which case no family prefix matches it. *)
Lemma resolveModelName_cases modelName :
  resolveModelName modelName = js "gpt-3.5-turbo-16k"
  \/ resolveModelName modelName = js "gpt-3.5-turbo"
  \/ resolveModelName modelName = js "gpt-4-32k"
  \/ resolveModelName modelName = js "gpt-4"
  \/ (resolveModelName modelName = modelName
      /\ startsWith modelName (js "gpt-3.5-turbo-16k") = false
      /\ startsWith modelName (js "gpt-3.5-turbo-") = false
      /\ startsWith modelName (js "gpt-4-32k") = false
      /\ startsWith modelName (js "gpt-4-") = false).
Proof.
  unfold resolveModelName.
  destruct (startsWith modelName (js "gpt-3.5-turbo-16k")); [auto|].
  destruct (startsWith modelName (js "gpt-3.5-turbo-")); [auto|].
  destruct (startsWith modelName (js "gpt-4-32k")); [auto|].
  destruct (startsWith modelName (js "gpt-4-")); [auto 6|].
  right. right. right. right. auto.
Qed.

Lemma resolveModelName_fixed modelName :
  resolveModelName (resolveModelName modelName) = resolveModelName modelName.
Proof.
  destruct (resolveModelName_cases modelName)
    as [-> | [-> | [-> | [-> | (E & H1 & H2 & H3 & H4)]]]];
    try reflexivity.
  rewrite E. unfold resolveModelName. rewrite H1, H2, H3, H4. reflexivity.
Qed.

Lemma getModelContextSize_range modelName :
  2048 <= getModelContextSize modelName <= 32768.
Proof.
  unfold getModelContextSize.
  destruct (resolveModelName_cases modelName)
    as [-> | [-> | [-> | [-> | (E & H1 & H2 & H3 & H4)]]]];
    try (vm_compute; split; discriminate).
  rewrite E.
  destruct (Map_get modelContextSizeMap modelName) as [v|] eqn:Eg;
    [|simpl; lia].
  apply Map_get_In in Eg. simpl in Eg. unfold nullish.
  repeat (destruct Eg as [Eg | Eg];
          [injection Eg as <- <-; first [lia | vm_compute in H4; discriminate]|]).
  contradiction.
Qed.

End Models.

(** X18. Resolving a model name is idempotent, and the context size of a
    name is that of its resolved name. *)
Theorem resolveModelName_idempotent (modelName : jsstring) :
  resolveModelName (resolveModelName modelName) = resolveModelName modelName
  /\ getModelContextSize (resolveModelName modelName) = getModelContextSize modelName.
Proof.
  split; [apply resolveModelName_fixed|].
  unfold getModelContextSize. rewrite resolveModelName_fixed. reflexivity.
Qed.

(** X19. Every model name, known or not, gets a context size between 2048
    and 32768: the entry of 128000 for gpt-4-1106-preview is never returned,
    because that name resolves to gpt-4. *)
Theorem getModelContextSize_between (modelName : jsstring) :
  2048 <= getModelContextSize modelName <= 32768.
Proof. apply getModelContextSize_range. Qed.

(** X20. Whatever follows the family name, a gpt-3.5-turbo-16k model has
    16384 tokens of context and a gpt-4-32k model has 32768. *)
Theorem versioned_names_resolve (suffix : jsstring) :
  getModelContextSize (js "gpt-3.5-turbo-16k" ++ suffix) = 16384
  /\ getModelContextSize (js "gpt-4-32k" ++ suffix) = 32768.
Proof.
  unfold getModelContextSize, resolveModelName. split.
  - rewrite startsWith_app. reflexivity.
  - rewrite startsWith_app.
    change (startsWith (js "gpt-4-32k" ++ suffix) (js "gpt-3.5-turbo-16k")) with false.
    change (startsWith (js "gpt-4-32k" ++ suffix) (js "gpt-3.5-turbo-")) with false.
    reflexivity.
Qed.

(** X21. For a response budget that is not negative, the tokens left are
    between 0 and the context size of the model, and when some are left,
    prompt, response and what is left fill the context exactly. *)
Theorem approximateMaxTokenSize_fills_context
  (prompt modelName : jsstring) (maxTokensInResponse : Z) :
  0 <= maxTokensInResponse ->
  0 <= approximateMaxTokenSize prompt modelName maxTokensInResponse
    <= getModelContextSize modelName
  /\ (0 < approximateMaxTokenSize prompt modelName maxTokensInResponse ->
      approximateTokenSize prompt + maxTokensInResponse
      + approximateMaxTokenSize prompt modelName maxTokensInResponse
      = getModelContextSize modelName).
Proof.
  intros Hresp. unfold approximateMaxTokenSize.
  pose proof (approximateTokenSize_bounds prompt) as Hs.
  pose proof (getModelContextSize_range modelName) as Hc.
  lia.
Qed.

Lemma approximateMaxTokenSize_fills_context_witness :
  0 <= 100 /\
  (0 <= approximateMaxTokenSize (js "This is a test prompt.") (js "gpt-3.5-turbo") 100
     <= getModelContextSize (js "gpt-3.5-turbo")
   /\ (0 < approximateMaxTokenSize (js "This is a test prompt.") (js "gpt-3.5-turbo") 100 ->
       approximateTokenSize (js "This is a test prompt.") + 100
       + approximateMaxTokenSize (js "This is a test prompt.") (js "gpt-3.5-turbo") 100
       = getModelContextSize (js "gpt-3.5-turbo"))).
Proof.
  split; [lia|].
  apply (approximateMaxTokenSize_fills_context
           (js "This is a test prompt.") (js "gpt-3.5-turbo") 100); lia.
Defined.

(** X22. A gpt-4 model whose version does not start with 32k gets the
    context size of gpt-4, 8192; this includes gpt-4-1106-preview, whose own
    entry in the map is never looked up. *)
Theorem gpt4_versions_resolve (suffix : jsstring) :
  startsWith suffix (js "32k") = false ->
  getModelContextSize (js "gpt-4-" ++ suffix) = 8192.
Proof.
  intros H. unfold getModelContextSize, resolveModelName.
  change (startsWith (js "gpt-4-" ++ suffix) (js "gpt-3.5-turbo-16k")) with false.
  change (startsWith (js "gpt-4-" ++ suffix) (js "gpt-3.5-turbo-")) with false.
  change (startsWith (js "gpt-4-" ++ suffix) (js "gpt-4-32k"))
    with (startsWith suffix (js "32k")).
  rewrite H, startsWith_app. reflexivity.
Qed.

Lemma gpt4_versions_resolve_witness :
  startsWith (js "1106-preview") (js "32k") = false
  /\ getModelContextSize (js "gpt-4-" ++ js "1106-preview") = 8192.
Proof.
  split; [reflexivity | apply (gpt4_versions_resolve (js "1106-preview")); reflexivity].
Defined.

(** ** Texts of CJK characters *)

Section CJK.

Lemma cjk_bounds c :
  CharClass.cjk c = true -> 0x1100 <= c <= 0xFFEF /\ (c <= 0xD7FF \/ 0xFF00 <= c).
Proof.
  unfold CharClass.cjk, CharClass.in_ranges. simpl.
  rewrite !orb_true_iff, !andb_true_iff, !Z.leb_le. lia.
Qed.

Lemma cjk_plain c : CharClass.cjk c = true -> CharClass.space c = false -> plain c = true.
Proof.
  intros Hc Hs. unfold plain. rewrite Hs. simpl.
  destruct (CharClass.punctuation c) eqn:Hp; [|reflexivity].
  apply one_of_In in Hp. simpl in Hp.
  repeat (destruct Hp as [<- | Hp]; [discriminate Hc|]). contradiction.
Qed.

(** Without surrogates every code unit is a code point. *)
Lemma code_points_no_surrogate s :
  forallb (fun c => negb (is_high_surrogate c)) s = true -> code_points s = jslength s.
Proof.
  unfold jslength. induction s as [|c s IH]; [reflexivity|].
  intros H. simpl in H. apply andb_true_iff in H. destruct H as [Hc Hs].
  apply negb_true_iff in Hc. specialize (IH Hs).
  destruct s as [|d s]; [reflexivity|].
  change (code_points (c :: d :: s))
    with (if is_high_surrogate c && is_low_surrogate d
          then 1 + code_points s else 1 + code_points (d :: s)).
  rewrite Hc. simpl andb. cbv iota. rewrite IH. cbn [length]. lia.
Qed.

Lemma cjk_text_size input :
  forallb (fun c => CharClass.cjk c && negb (CharClass.space c)) input = true ->
  approximateTokenSize input = jslength input.
Proof.
  intros H. destruct input as [|c s]; [reflexivity|].
  set (input := c :: s) in *.
  rewrite forallb_forall in H.
  assert (Hall : forall d, In d input ->
                   CharClass.cjk d = true /\ CharClass.space d = false).
  { intros d Hd. specialize (H d Hd). apply andb_true_iff in H.
    destruct H as [H1 H2]. apply negb_true_iff in H2. auto. }
  assert (Hplain : forallb plain input = true).
  { apply forallb_forall. intros d Hd. destruct (Hall d Hd). apply cjk_plain; assumption. }
  rewrite approximateTokenSize_total. unfold approximateTokenChunks.
  rewrite (roughTokens_token input ltac:(discriminate) (or_intror (or_intror Hplain))).
  simpl. rewrite Z.add_0_r. unfold countOf.
  destruct (Hall c (or_introl eq_refl)) as [Hcjk Hsp].
  assert (Hws : WHITESPACE_RE input = false) by (simpl; rewrite Hsp; reflexivity).
  assert (Hre : CJK_RE input = true) by (simpl; rewrite Hcjk; reflexivity).
  rewrite Hws, Hre. apply code_points_no_surrogate.
  apply forallb_forall. intros d Hd. destruct (Hall d Hd) as [Hd1 _].
  apply cjk_bounds in Hd1. unfold is_high_surrogate.
  apply negb_true_iff, andb_false_iff.
  rewrite !Z.leb_gt. lia.
Qed.

End CJK.

(** X23. A text made of characters of the CJK ranges only, none of them
    whitespace, counts one token for each character. *)
Theorem cjk_text_counts_each_character (input : jsstring) :
  forallb (fun c => CharClass.cjk c && negb (CharClass.space c)) input = true ->
  approximateTokenSize input = jslength input.
Proof. apply cjk_text_size. Qed.

Lemma cjk_text_counts_each_character_witness :
  forallb (fun c => CharClass.cjk c && negb (CharClass.space c)) [0x65E5; 0x672C; 0x8A9E] = true
  /\ approximateTokenSize [0x65E5; 0x672C; 0x8A9E] = jslength [0x65E5; 0x672C; 0x8A9E].
Proof.
  split; [reflexivity | apply (cjk_text_counts_each_character [0x65E5; 0x672C; 0x8A9E])].
  reflexivity.
Defined.
